(** * The content formatter of the product details viewer

    A shallow embedding of [format_content_locally] (src/web_app.py) and of
    the one line that prepares its argument, together with the fragment of
    Python's [re] module and of [str] that the function relies on.

    Text.  A Python [str] is modelled as a list of characters, and a
    character as an [ascii]: the code points 0..255 (Latin-1).  The classes
    [\w], [\s], [\d], the case folding of [re.IGNORECASE] and [str.strip]
    are the Unicode ones of Python 3 restricted to that range.

    Regular expressions.  A pattern is a term of [regex]; each pattern of
    the source is transcribed next to its Python text.  The matcher is a
    backtracking matcher in continuation-passing style, greedy as [re] is.
    The scanning functions ([re.findall], [re.split], [re.sub]) are built
    on one left-to-right scan, [finditer]. *)

From Stdlib Require Import Ascii String List Bool Arith Lia.
Import ListNotations.

Set Implicit Arguments.

(** * The program *)

(** ** Characters and strings *)

Definition str := list ascii.

(** A string literal as a Python [str]. *)
Definition py (s : string) : str := list_ascii_of_string s.

Definition code (c : ascii) : nat := nat_of_ascii c.

Definition between (lo hi : nat) (c : ascii) : bool :=
  (lo <=? code c) && (code c <=? hi).

(** [str.isspace] on one character, which is also the class [\s]:
    TAB..CR, FS..US, the blank, NEL and the no-break space. *)
Definition is_space (c : ascii) : bool :=
  between 9 13 c || between 28 32 c || (code c =? 133) || (code c =? 160).

(** The class [\d]: the decimal digits. *)
Definition is_digit (c : ascii) : bool := between 48 57 c.

(** [str.isalnum] on one character. *)
Definition is_alnum (c : ascii) : bool :=
  between 48 57 c || between 65 90 c || between 97 122 c
  || (code c =? 170) || between 178 179 c || (code c =? 181)
  || between 185 186 c || between 188 190 c
  || between 192 214 c || between 216 246 c || between 248 255 c.

(** The class [\w]: alphanumerics and the underscore. *)
Definition is_word (c : ascii) : bool := is_alnum c || (code c =? 95).

(** Simple lower-casing, as [re.IGNORECASE] folds a character. *)
Definition lower (c : ascii) : ascii :=
  if between 65 90 c || between 192 214 c || between 216 222 c
  then ascii_of_nat (code c + 32) else c.

Definition newline : ascii := ascii_of_nat 10.
Definition dquote : ascii := ascii_of_nat 34.
Definition colon : ascii := ascii_of_nat 58.

(** [s.lstrip()], [s.rstrip()] and [s.strip()]. *)
Fixpoint lstrip (s : str) : str :=
  match s with
  | c :: s' => if is_space c then lstrip s' else s
  | [] => []
  end.

Definition rstrip (s : str) : str := rev (lstrip (rev s)).

Definition strip (s : str) : str := rstrip (lstrip s).

(** [sep.join(parts)]. *)
Fixpoint join (sep : str) (parts : list str) : str :=
  match parts with
  | [] => []
  | [p] => p
  | p :: ps => p ++ sep ++ join sep ps
  end.

(** ** Regular expressions *)

Inductive regex : Type :=
| Eps                            (* the empty pattern *)
| Chr (c : ascii)                (* a literal character *)
| Cls (p : ascii -> bool)        (* a class: \w, \s, [...] *)
| Seq (r1 r2 : regex)            (* r1 r2 *)
| Alt (r1 r2 : regex)            (* r1|r2 *)
| Star (p : ascii -> bool)       (* [...]*, greedy *)
| Plus (p : ascii -> bool)       (* [...]+, greedy *)
| WordB                          (* \b *)
| Behind (p : ascii -> bool)     (* (?<=[...]) *)
| Group (r : regex).             (* ( r ), the capturing group 1 *)

(** The state of a match attempt: the characters taken so far (last one
    first), the text still ahead, and what group 1 holds. *)
Record mstate : Type := MState {
  consumed : str;
  remaining : str;
  captured : option str
}.

Section Matcher.

(** [flags=re.IGNORECASE] *)
Variable ignorecase : bool.

(** The text before the position where the attempt starts, last
    character first. *)
Variable before : str.

Definition chr_eq (c x : ascii) : bool :=
  if ignorecase then Ascii.eqb (lower x) (lower c) else Ascii.eqb x c.

Definition word_at (o : option ascii) : bool :=
  match o with Some c => is_word c | None => false end.

Definition prev_char (st : mstate) : option ascii :=
  hd_error (consumed st ++ before).

Definition next_char (st : mstate) : option ascii :=
  hd_error (remaining st).

(** [\b]: exactly one side of the position is a word character. *)
Definition at_boundary (st : mstate) : bool :=
  xorb (word_at (prev_char st)) (word_at (next_char st)).

Definition take1 (p : ascii -> bool) (st : mstate)
    (k : mstate -> option mstate) : option mstate :=
  match remaining st with
  | x :: xs => if p x then k (MState (x :: consumed st) xs (captured st))
               else None
  | [] => None
  end.

(** Greedy repetition of a class: the longest run first, then shorter
    ones while the continuation fails. *)
Fixpoint star (p : ascii -> bool) (cons rem : str) (g : option str)
    (k : mstate -> option mstate) : option mstate :=
  match rem with
  | x :: xs =>
      if p x then
        match star p (x :: cons) xs g k with
        | Some r => Some r
        | None => k (MState cons rem g)
        end
      else k (MState cons rem g)
  | [] => k (MState cons rem g)
  end.

Fixpoint rmatch (r : regex) (st : mstate)
    (k : mstate -> option mstate) : option mstate :=
  match r with
  | Eps => k st
  | Chr c => take1 (chr_eq c) st k
  | Cls p => take1 p st k
  | Seq r1 r2 => rmatch r1 st (fun st' => rmatch r2 st' k)
  | Alt r1 r2 =>
      match rmatch r1 st k with
      | Some res => Some res
      | None => rmatch r2 st k
      end
  | Star p => star p (consumed st) (remaining st) (captured st) k
  | Plus p =>
      take1 p st (fun st' =>
        star p (consumed st') (remaining st') (captured st') k)
  | WordB => if at_boundary st then k st else None
  | Behind p =>
      match prev_char st with
      | Some c => if p c then k st else None
      | None => None
      end
  | Group r1 =>
      rmatch r1 st (fun st' =>
        k (MState (consumed st') (remaining st')
             (Some (rev (firstn (length (consumed st') - length (consumed st))
                                (consumed st'))))))
  end.

(** [pattern.match(text, pos)]: an attempt anchored at the position. *)
Definition match_at (r : regex) (aft : str) : option mstate :=
  rmatch r (MState [] aft None) Some.

End Matcher.

(** One match as the scan reports it: the text before it (last character
    first), the unmatched text [gap] between the previous match and this
    one, what the match holds ([m.group(0)], [m.group(1)]) and the text
    after it. *)
Record occurrence : Type := Occ {
  left : str;
  gap : str;
  whole : str;
  group1 : option str;
  rest : str
}.

(** A match attempt at one position that succeeds and takes at least one
    character.  None of the patterns of this program matches the empty
    string ([patterns_take_some]), so that every match is a hit
    ([hit_match_at]); an empty match is not reported. *)
Definition hit (ic : bool) (r : regex) (bef aft : str) : option mstate :=
  match match_at ic bef r aft with
  | Some (MState (c :: cs) rem g) => Some (MState (c :: cs) rem g)
  | _ => None
  end.

(** [pattern.search]: the leftmost position, from the current one on, where
    the pattern matches. *)
Fixpoint search (ic : bool) (r : regex) (bef skipped aft : str)
    : option occurrence :=
  match hit ic r bef aft with
  | Some st =>
      Some (Occ bef (rev skipped) (rev (consumed st)) (captured st)
                (remaining st))
  | None =>
      match aft with
      | [] => None
      | x :: aft' => search ic r (x :: bef) (x :: skipped) aft'
      end
  end.

(** The left-to-right scan of non-overlapping matches: each search resumes
    where the previous match ended.  [fuel] bounds the number of matches. *)
Fixpoint finditer_from (fuel : nat) (ic : bool) (r : regex) (bef aft : str)
    : list occurrence * str :=
  match fuel with
  | 0 => ([], aft)
  | S n =>
      match search ic r bef [] aft with
      | None => ([], aft)
      | Some o =>
          let (os, tail) :=
            finditer_from n ic r (rev (whole o) ++ left o) (rest o)
          in (o :: os, tail)
      end
  end.

Definition finditer (ic : bool) (r : regex) (text : str)
    : list occurrence * str :=
  finditer_from (S (length text)) ic r [] text.

Fixpoint has_group (r : regex) : bool :=
  match r with
  | Group _ => true
  | Seq r1 r2 | Alt r1 r2 => has_group r1 || has_group r2
  | _ => false
  end.

(** [m.group(1)] as text.  A group that took no part in the match gives
    the empty string, as it does in a replacement template ([re.split] has
    [None] there); group 1 of the patterns of this program takes part in
    every match. *)
Definition group_text (o : occurrence) : str :=
  match group1 o with Some g => g | None => [] end.

(** [re.findall(r, text)]: the group of each match when the pattern has one,
    the whole match otherwise. *)
Definition re_findall (ic : bool) (r : regex) (text : str) : list str :=
  map (if has_group r then group_text else whole) (fst (finditer ic r text)).

(** [re.split(r, text)]: the pieces between the matches, with the group of
    each match in between when the pattern has one. *)
Definition re_split (ic : bool) (r : regex) (text : str) : list str :=
  let (os, tail) := finditer ic r text in
  concat (map (fun o => if has_group r then [gap o; group_text o]
                        else [gap o]) os)
  ++ [tail].

(** A replacement template: literal text and references to group 1. *)
Inductive titem : Type :=
| TLit (s : str)
| TGroup1.

Definition expand (template : list titem) (o : occurrence) : str :=
  concat (map (fun i => match i with
                        | TLit s => s
                        | TGroup1 => group_text o
                        end) template).

(** [re.sub(r, template, text, flags)]. *)
Definition re_sub (ic : bool) (r : regex) (template : list titem)
    (text : str) : str :=
  let (os, tail) := finditer ic r text in
  concat (map (fun o => gap o ++ expand template o) os) ++ tail.

(** [re.escape(s)] read as a pattern: the characters of [s], literally. *)
Fixpoint lit (s : str) : regex :=
  match s with
  | [] => Eps
  | c :: s' => Seq (Chr c) (lit s')
  end.

(** ['|'.join(patterns)] read as a pattern. *)
Fixpoint alternation (rs : list regex) : regex :=
  match rs with
  | [] => Eps
  | [r] => r
  | r :: rs' => Alt r (alternation rs')
  end.

(** ** Exceptions *)

Inductive exn : Type := IndexError.

Inductive result (A : Type) : Type :=
| Ok (a : A)
| Raise (e : exn).

Arguments Ok {A} a.
Arguments Raise {A} e.

Definition bind {A B : Type} (m : result A) (f : A -> result B) : result B :=
  match m with
  | Ok a => f a
  | Raise e => Raise e
  end.

Notation "x <- m ;; k" := (bind m (fun x => k))
  (at level 61, m at next level, right associativity).

(** [l[i]] for a non-negative index. *)
Definition index {A : Type} (l : list A) (i : nat) : result A :=
  match nth_error l i with
  | Some a => Ok a
  | None => Raise IndexError
  end.

(** [range(start, stop, 2)] *)
Fixpoint range2_from (n : nat) (start stop : nat) : list nat :=
  match n with
  | 0 => []
  | S n' => if start <? stop then start :: range2_from n' (start + 2) stop
            else []
  end.

Definition range2 (start stop : nat) : list nat :=
  range2_from stop start stop.

(** ** The formatter *)

Definition keywords_to_highlight : list str :=
  [py "Unit"; py "Value"; py "Bullet Point"; py "Bullet Poin"; py "Item Name"].

Definition span_open : str :=
  py "<span style=" ++ [dquote] ++ py "color:red; font-weight:bold;"
  ++ [dquote] ++ py ">".

Definition span_close : str := py "</span>".

(** [r'<span style="color:red; font-weight:bold;">\1</span>'] *)
Definition highlight_template : list titem :=
  [TLit span_open; TGroup1; TLit span_close].

(** [[\w\s\d]] *)
Definition key_class (c : ascii) : bool := is_word c || is_space c || is_digit c.

(** [r'(\w[\w\s\d]*:)'] *)
Definition key_re : regex :=
  Group (Seq (Cls is_word) (Seq (Star key_class) (Chr colon))).

(** [[.!?]] *)
Definition is_terminal (c : ascii) : bool :=
  Ascii.eqb c "."%char || Ascii.eqb c "!"%char || Ascii.eqb c "?"%char.

(** [r'(?<=[.!?])\s+'] *)
Definition sentence_re : regex := Seq (Behind is_terminal) (Plus is_space).

(** [r'\b({})\b'.format(re.escape(keyword))] *)
Definition keyword_re (keyword : str) : regex :=
  Seq WordB (Seq (Group (lit keyword)) WordB).

(** [f'({split_pattern})'] with [split_pattern = '|'.join(map(re.escape, keys))] *)
Definition split_re (keys : list str) : regex :=
  Group (alternation (map lit keys)).

(** One pass of the highlighting loop:
    [re.sub(r'\b(kw)\b', highlight_template, text, flags=re.IGNORECASE)]. *)
Definition highlight_pass (text : str) (keyword : str) : str :=
  re_sub true (keyword_re keyword) highlight_template text.

(** [for keyword in keywords_to_highlight: text = re.sub(...)] *)
Definition highlight (text : str) : str :=
  fold_left highlight_pass keywords_to_highlight text.

(** The branch taken when no key is found (lines 32-41). *)
Definition format_sentences (text : str) : str :=
  let sentences := re_split false sentence_re text in
  let bullet_list :=
    join [newline]
      (map (fun s => py "&bull; " ++ strip s)
           (filter (fun s => negb (length (strip s) =? 0)) sentences)) in
  highlight bullet_list.

(** The body of the pairing loop (lines 50-61) for one index [i]. *)
Definition format_pair (values : list str) (i : nat) : result str :=
  k <- index values i ;;
  v <- index values (i + 1) ;;
  let key := strip k in
  let value := strip v in
  let bold_key := py "**" ++ key ++ py "**" in
  let processed_value := highlight value in
  Ok (bold_key ++ py " " ++ processed_value).

(** The pairing loop (lines 47-61): [formatted_output] after the indices
    [idxs] have been visited. *)
Fixpoint pairing_loop (values : list str) (idxs : list nat)
    (formatted_output : list str) : result (list str) :=
  match idxs with
  | [] => Ok formatted_output
  | i :: idxs' =>
      line <- format_pair values i ;;
      pairing_loop values idxs' (formatted_output ++ [line])
  end.

(** Lines 47-64: the loop over the split result and the final join. *)
Definition format_values (values : list str) : result str :=
  formatted_output <- pairing_loop values (range2 1 (length values)) [] ;;
  Ok (join [newline; newline] formatted_output).

(** The branch taken when keys are found (lines 43-64). *)
Definition format_pairs (keys : list str) (text : str) : result str :=
  let values := re_split false (split_re keys) text in
  format_values values.

(** [not keys]: a list is false when it is empty. *)
Definition py_not {A : Type} (l : list A) : bool :=
  match l with
  | [] => true
  | _ :: _ => false
  end.

(** [format_content_locally(text)] *)
Definition format_content_locally (text : str) : result str :=
  let keys := re_findall false key_re text in
  if py_not keys then Ok (format_sentences text)
  else format_pairs keys text.

(** ** The caller's preparation of the argument (line 92) *)

(** A cell of the selected row: a text, or the missing-value marker NaN
    that the CSV reader puts where a field is empty. *)
Inductive cell : Type :=
| CellStr (s : str)
| CellNaN.

(** [str(v)] on a cell. *)
Definition py_str (v : cell) : str :=
  match v with
  | CellStr s => s
  | CellNaN => py "nan"
  end.

(** A row: its labels and cells, in column order. *)
Definition row := list (string * cell).

(** [row.get(label, default)]: the cell under the label, the default when
    the row has no such label. *)
Fixpoint row_get (r : row) (label : string) (default : cell) : cell :=
  match r with
  | [] => default
  | (l, v) :: r' => if String.eqb l label then v else row_get r' label default
  end.

Definition fallback : str := py "No description available.".

(** [str(product_details.get('catalog_content', 'No description available.'))] *)
Definition raw_description (product_details : row) : str :=
  py_str (row_get product_details "catalog_content" (CellStr fallback)).

(** ** The page (lines 13-15 and 68-142)

    The script is read as the sequence of the display calls it makes, each
    with its arguments, in the order of the calls; a call made inside a
    [with] block of a column or a container comes after the call that
    makes the block.  What the script gets from outside (whether the file
    is there, what the reader returns, the user's choice, the working
    directory) is given to it.  The page configuration and the title
    (lines 7-11 and 67), whose texts have a pictograph in them that is no
    code point below 256, are left out. *)

Definition CSV_PATH : str := py "dataset/train.csv".

Definition required_columns : list string :=
  ["sample_id"%string; "image_link"%string; "catalog_content"%string].

(** [for keyword in keywords_to_highlight: ... re.sub(...)] on the raw text
    (lines 108-112); the keyword list and the template are written out a
    second time there, the same as in the formatter. *)
Definition highlighted_raw_text (raw_description : str) : str :=
  fold_left
    (fun text keyword =>
       re_sub true (keyword_re keyword) highlight_template text)
    [py "Unit"; py "Value"; py "Bullet Point"; py "Bullet Poin"; py "Item Name"]
    raw_description.

Section Page.

(** The sample identifiers as pandas holds them: their equality [==], their
    truth value ([if selected_id:]) and their text in an f-string. *)
Variable ident : Type.
Variable ident_eq : ident -> ident -> bool.
Variable ident_true : ident -> bool.
Variable ident_str : ident -> str.

(** [Series.unique()] *)
Variable unique : list ident -> list ident.

(** A record of the table: its identifier and its other cells, by label. *)
Record record : Type := Rec {
  sample_id : ident;
  cells : row
}.

(** The table read from the file. *)
Record dataframe : Type := Df {
  columns : list string;
  records : list record
}.

(** What is raised inside the [try] block. *)
Inductive failure : Type :=
| ReadFailed (msg : str)       (* by pd.read_csv *)
| OutOfBounds                  (* by .iloc[0], no record selected *)
| NoLabel (label : string)     (* by product_details[label] *)
| FormatFailed (e : exn)       (* by format_content_locally *)
| ImageFailed (msg : str).     (* by st.image *)

(** [f"{e}"] *)
Variable describe : failure -> str.

(** The choice of the user in the select box; nothing when there is no
    option. *)
Variable selectbox : str -> list ident -> option ident.

(** Whether [st.image] refuses the cell it is given, and with what
    message. *)
Variable image_refused : cell -> option str.

(** What the page shows, call by call. *)
Inductive element : Type :=
| Error (body : str)
| Info (body : str)
| SidebarHeader (body : str)
| SidebarSelectbox (label : str) (options : list ident)
| Header (body : str) (divider : str)
| Subheader (body : str)
| Columns (spec : nat + list nat)
| Container (border : bool) (height : option nat)
| Markdown (body : str) (unsafe_allow_html : bool)
| Divider
| Image (image : cell) (caption : str) (width : nat)
| Table (data : record).      (* a row transposed is the row *)

(** A piece of the script: what it has shown, and whether it went through
    or raised. *)
Definition ui (A : Type) : Type := (list element * (failure + A))%type.

Definition ui_ret {A : Type} (a : A) : ui A := ([], inr a).

Definition ui_raise {A : Type} (f : failure) : ui A := ([], inl f).

Definition show (e : element) : ui unit := ([e], inr tt).

Definition ui_bind {A B : Type} (m : ui A) (k : A -> ui B) : ui B :=
  match m with
  | (shown, inl f) => (shown, inl f)
  | (shown, inr a) => let (more, r) := k a in (shown ++ more, r)
  end.

Notation "x <~ m ;; k" := (ui_bind m (fun x => k))
  (at level 61, m at next level, right associativity).
Notation "m ;;; k" := (ui_bind m (fun _ => k))
  (at level 61, right associativity).

(** [try: body  except Exception as e: handler(e)] *)
Definition try_except (body : ui unit) (handler : failure -> ui unit)
    : ui unit :=
  match body with
  | (shown, inl f) => let (more, r) := handler f in (shown ++ more, r)
  | (shown, inr tt) => (shown, inr tt)
  end.

(** [all(col in df.columns for col in required_columns)] *)
Definition has_required_columns (df : dataframe) : bool :=
  forallb (fun col => existsb (String.eqb col) (columns df)) required_columns.

(** [df[df['sample_id'] == selected_id].iloc[0]] *)
Definition first_selected (df : dataframe) (selected_id : ident) : ui record :=
  match filter (fun r => ident_eq (sample_id r) selected_id) (records df) with
  | r :: _ => ui_ret r
  | [] => ui_raise OutOfBounds
  end.

(** [product_details[label]] for a label other than the identifier's. *)
Fixpoint row_item (r : row) (label : string) : ui cell :=
  match r with
  | [] => ui_raise (NoLabel label)
  | (l, v) :: r' => if String.eqb l label then ui_ret v else row_item r' label
  end.

(** A call of the formatter, whose exception, if any, goes up. *)
Definition call_format (raw : str) : ui str :=
  match format_content_locally raw with
  | Ok out => ui_ret out
  | Raise e => ui_raise (FormatFailed e)
  end.

(** [st.image(image_url, caption=..., width=...)] *)
Definition show_image (image_url : cell) (caption : str) (width : nat)
    : ui unit :=
  match image_refused image_url with
  | Some msg => ui_raise (ImageFailed msg)
  | None => show (Image image_url caption width)
  end.

(** [bool(selected_id)] *)
Definition truthy (selected_id : option ident) : bool :=
  match selected_id with
  | Some i => ident_true i
  | None => false
  end.

(** Lines 87-131: the details of the selected record. *)
Definition show_details (df : dataframe) (selected_id : ident) : ui unit :=
  product_details <~ first_selected df selected_id ;;
  show (Header (py "Details for Product: " ++ ident_str selected_id)
               (py "rainbow")) ;;;
  show (Subheader (py "Product Description")) ;;;
  let raw := raw_description (cells product_details) in
  show (Columns (inl 2)) ;;;
  show (Markdown (py "##### Formatted Description") false) ;;;
  show (Container true (Some 300)) ;;;
  formatted_description <~ call_format raw ;;
  show (Markdown formatted_description true) ;;;
  show (Markdown (py "##### Raw Content (with Highlighting)") false) ;;;
  show (Container true None) ;;;
  show (Markdown (highlighted_raw_text raw) true) ;;;
  show Divider ;;;
  show (Columns (inr [1; 2])) ;;;
  show (Subheader (py "Product Image")) ;;;
  image_url <~ row_item (cells product_details) "image_link" ;;
  show_image image_url (py "ID: " ++ ident_str selected_id) 200 ;;;
  show (Subheader (py "All Product Details")) ;;;
  show (Table product_details).

(** Lines 73-131: the body of the [try] block. *)
Definition process_file (read_csv : str + dataframe) : ui unit :=
  df <~ match read_csv with
        | inl msg => ui_raise (ReadFailed msg)
        | inr df => ui_ret df
        end ;;
  if negb (has_required_columns df) then
    show (Error (py "Error: The CSV must contain the columns: "
                 ++ join (py ", ") (map py required_columns)))
  else
    show (SidebarHeader (py "Select a Product")) ;;;
    let sample_ids := unique (map sample_id (records df)) in
    show (SidebarSelectbox (py "Select a Sample ID:") sample_ids) ;;;
    let selected_id := selectbox (py "Select a Sample ID:") sample_ids in
    match selected_id with
    | Some i => if ident_true i then show_details df i else ui_ret tt
    | None => ui_ret tt
    end.

Definition spaces8 : str := py "        ".

(** Lines 71-142; [path_exists] is [os.path.exists(CSV_PATH)], [read_csv]
    what [pd.read_csv(CSV_PATH)] returns or raises, [cwd] is [os.getcwd()]
    and [abspath] is [os.path.abspath(CSV_PATH)]. *)
Definition main_logic (path_exists : bool) (read_csv : str + dataframe)
    (cwd abspath : str) : ui unit :=
  if path_exists then
    try_except (process_file read_csv)
      (fun e =>
         show (Error (py "An error occurred while processing the file: "
                      ++ describe e)))
  else
    show (Error (py "Error: The file was not found at the specified path: '"
                 ++ CSV_PATH ++ py "'")) ;;;
    show (Info ([newline] ++ spaces8
                ++ py "**Please make sure the CSV file exists at that location.**"
                ++ [newline] ++ spaces8
                ++ py "- The current working directory is: `" ++ cwd ++ py "`"
                ++ [newline] ++ spaces8
                ++ py "- The script is looking for the file at the absolute path: `"
                ++ abspath ++ py "`"
                ++ [newline] ++ spaces8)).

(** Lines 68-142. *)
Definition page (path_exists : bool) (read_csv : str + dataframe)
    (cwd abspath : str) : ui unit :=
  show (Markdown
          (py "This app displays product details with local content formatting.")
          false) ;;;
  main_logic path_exists read_csv cwd abspath.

End Page.

(** ** Notions used to state and to prove the properties *)

(** A pattern that takes at least one character whenever it matches. *)
Fixpoint takes_some (r : regex) : bool :=
  match r with
  | Chr _ | Cls _ | Plus _ => true
  | Seq r1 r2 => takes_some r1 || takes_some r2
  | Alt r1 r2 => takes_some r1 && takes_some r2
  | Group r1 => takes_some r1
  | Eps | Star _ | WordB | Behind _ => false
  end.

(** The longest prefix of [s] made of characters of a class, and what
    follows it. *)
Fixpoint span (p : ascii -> bool) (s : str) : str * str :=
  match s with
  | x :: xs =>
      if p x then let (a, b) := span p xs in (x :: a, b) else ([], s)
  | [] => ([], [])
  end.

(** A key at the head of [aft]: a word character, the longest run of the
    key class, a colon.  Gives the key and the text after it. *)
Definition key_at (aft : str) : option (str * str) :=
  match aft with
  | x :: xs =>
      if is_word x then
        match snd (span key_class xs) with
        | c :: after =>
            if Ascii.eqb c colon
            then Some (x :: fst (span key_class xs) ++ [colon], after)
            else None
        | [] => None
        end
      else None
  | [] => None
  end.

(** The state a match attempt ends in when the pattern took the text [m]
    and left [rem]; [g] tells whether group 1 encloses the whole pattern.
    An empty match is no hit. *)
Definition found (g : bool) (o : option (str * str)) : option mstate :=
  match o with
  | Some (c :: m, rem) =>
      Some (MState (rev (c :: m)) rem (if g then Some (c :: m) else None))
  | _ => None
  end.

(** A sentence boundary at the position: a terminal mark just before, then
    the longest run of whitespace. *)
Definition sentence_at (bef aft : str) : option (str * str) :=
  match bef with
  | c :: _ =>
      if is_terminal c then
        match aft with
        | x :: xs =>
            if is_space x
            then Some (x :: fst (span is_space xs), snd (span is_space xs))
            else None
        | [] => None
        end
      else None
  | [] => None
  end.

(** The literal [s] at the head of [aft], under the given case rule: the
    text it matched and the text after it. *)
Fixpoint lit_at (ic : bool) (s aft : str) : option (str * str) :=
  match s with
  | [] => Some ([], aft)
  | c :: s' =>
      match aft with
      | x :: xs =>
          if chr_eq ic c x then
            match lit_at ic s' xs with
            | Some (m, r) => Some (x :: m, r)
            | None => None
            end
          else None
      | [] => None
      end
  end.

(** [\b] between the text before (last character first) and the text
    after. *)
Definition boundary (bef aft : str) : bool :=
  xorb (word_at (hd_error bef)) (word_at (hd_error aft)).

(** The keyword at the head of [aft] as a whole word, case folded. *)
Definition keyword_at (kw bef aft : str) : option (str * str) :=
  if boundary bef aft then
    match lit_at true kw aft with
    | Some (m, r) => if boundary (rev m ++ bef) r then Some (m, r) else None
    | None => None
    end
  else None.

(** The first of the key literals, in list order, at the head of [aft]. *)
Fixpoint alt_at (keys : list str) (aft : str) : option (str * str) :=
  match keys with
  | [] => Some ([], aft)
  | [k] => lit_at false k aft
  | k :: ks =>
      match lit_at false k aft with
      | Some x => Some x
      | None => alt_at ks aft
      end
  end.

(** The text a match attempt works on: what it has taken and what is
    ahead. *)
Definition whole_text (st : mstate) : str := rev (consumed st) ++ remaining st.

(** The scan from a position, with fuel to spare. *)
Definition scan (ic : bool) (r : regex) (bef aft : str)
    : list occurrence * str :=
  finditer_from (S (length aft)) ic r bef aft.

(** The line the loop emits for a key and a value. *)
Definition line (k v : str) : str :=
  (py "**" ++ strip k ++ py "**") ++ py " " ++ highlight (strip v).

(** What a sentence boundary found by the scan looks like: the piece before
    it ends with a terminal mark, the boundary is a non-empty run of
    whitespace, as long as it can be. *)
Definition sentence_break (o : occurrence) : Prop :=
  (exists s c, gap o = s ++ [c] /\ is_terminal c = true)
  /\ whole o <> []
  /\ forallb is_space (whole o) = true
  /\ match rest o with c :: _ => is_space c = false | [] => True end.

(** A match of a keyword as the scan of [text] reports it: the keyword up
    to case, with no word character on either side, and group 1 holding the
    match. *)
Definition whole_word_match (kw text : str) (o : occurrence) : Prop :=
  map lower (whole o) = map lower kw
  /\ group1 o = Some (whole o)
  /\ rev (left o) ++ whole o ++ rest o = text
  /\ word_at (hd_error (left o)) = false
  /\ word_at (hd_error (rest o)) = false.

(** The shape of a key: a word character, then characters of the key class,
    then a colon. *)
Definition key_shaped (k : str) : Prop :=
  exists w run,
    k = w :: run ++ [colon] /\ is_word w = true /\ forallb key_class run = true.

(** A key as the scan of [text] reports it: of the shape above, held by
    group 1, at its place in the text, and the first key to start at or
    after the end of the previous match. *)
Definition key_occurrence (text : str) (o : occurrence) : Prop :=
  key_shaped (whole o)
  /\ group1 o = Some (whole o)
  /\ rev (left o) ++ whole o ++ rest o = text
  /\ forall pre c post,
       gap o = pre ++ c :: post ->
       key_at (c :: post ++ whole o ++ rest o) = None.

(** The key pattern as the specification words it: one or more characters
    of the class word/space/digit, then a colon, [([\w\s\d]+:)]. *)
Definition spec_key_re : regex := Group (Seq (Plus key_class) (Chr colon)).

(** A key between bold marks. *)
Definition bold (k : str) : str := py "**" ++ k ++ py "**".

(** The parts occur in [s] one after another, in list order, without
    overlap. *)
Fixpoint in_order (parts : list str) (s : str) : Prop :=
  match parts with
  | [] => True
  | p :: ps => exists a b, s = a ++ p ++ b /\ in_order ps b
  end.

(** Keys and values laid out as [re.split] returns them. *)
Definition interleave (pairs : list (str * str)) : list str :=
  concat (map (fun p => [fst p; snd p]) pairs).

(** What [re.sub] with the highlight template makes of a scan. *)
Definition render (res : list occurrence * str) : str :=
  concat (map (fun o => gap o ++ expand highlight_template o) (fst res))
  ++ snd res.

(** The pattern misses at every position of [x], when [x] stands between
    [bef] and [z]. *)
Fixpoint misses (ic : bool) (r : regex) (bef x z : str) : Prop :=
  match x with
  | [] => True
  | c :: x' =>
      hit ic r bef (c :: x' ++ z) = None /\ misses ic r (c :: bef) x' z
  end.

(** A match with more text after it. *)
Definition extend (z : str) (st : mstate) : mstate :=
  MState (consumed st) (remaining st ++ z) (captured st).

(** An occurrence with more text after it. *)
Definition with_rest (z : str) (o : occurrence) : occurrence :=
  Occ (left o) (gap o) (whole o) (group1 o) (rest o ++ z).

(** No character of the keyword is, up to case, the character [c0]. *)
Definition avoids (kw : str) (c0 : ascii) : bool :=
  forallb (fun c => negb (chr_eq true c c0)) kw.

(** A keyword occurrence between the span marks. *)
Definition wrapped (m : str) : str := span_open ++ m ++ span_close.

(** [out] is [text] in which occurrences of keywords, in any case, have
    been put between the span marks, one after another; nothing else
    differs. *)
Inductive emphasized (text : str) : str -> Prop :=
| emphasized_none : emphasized text text
| emphasized_wrap (a m b kw : str) :
    In kw keywords_to_highlight ->
    map lower m = map lower kw ->
    emphasized text (a ++ m ++ b) ->
    emphasized text (a ++ wrapped m ++ b).

(** The keyword occurs in the text as a whole word, in some case. *)
Definition occurs (kw text : str) : Prop :=
  exists pre m post,
    text = pre ++ m ++ post
    /\ map lower m = map lower kw
    /\ word_at (hd_error (rev pre)) = false
    /\ word_at (hd_error post) = false.

(** Every record of the table has a cell under every column of the table,
    the identifier's apart: so it is in a table that the reader returns. *)
Definition complete (ident : Type) (df : dataframe ident) : bool :=
  forallb
    (fun r =>
       forallb
         (fun col =>
            String.eqb col "sample_id"
            || existsb (String.eqb col) (map fst (cells r)))
         (columns df))
    (records df).

(** A table of two records, with numbers for identifiers. *)
Definition two_mugs : dataframe nat :=
  Df ["sample_id"%string; "catalog_content"%string; "image_link"%string]
     [Rec 7 [("catalog_content"%string, CellStr (py "Item Name: Red Mug"));
             ("image_link"%string, CellStr (py "http://img/7.png"))];
      Rec 8 [("catalog_content"%string, CellNaN);
             ("image_link"%string, CellNaN)]].

(** ** The formatter in the words of the specification *)

Definition space_at (o : option ascii) : bool :=
  match o with Some c => is_space c | None => false end.

(** Trimming: [t] is [s] with the whitespace at its two ends taken off. *)
Definition trim_of (s t : str) : Prop :=
  exists l r,
    s = l ++ t ++ r
    /\ forallb is_space l = true
    /\ forallb is_space r = true
    /\ space_at (hd_error t) = false
    /\ space_at (hd_error (rev t)) = false.

(** The keyword at the head of [aft], letter case apart, as a whole word:
    no word character stands just before it, none just after it.  Gives the
    text it covers, as it stands, and the text after it. *)
Definition word_occurrence (kw bef aft : str) : option (str * str) :=
  match lit_at true kw aft with
  | Some (m, r) =>
      if word_at (hd_error bef) || word_at (hd_error r) then None
      else Some (m, r)
  | None => None
  end.

(** Keyword emphasis for one keyword: from left to right, every whole-word
    occurrence of the keyword, letter case apart, is put between the span
    marks as it stands, and the scan goes on after it; every other
    character is kept.  [bef] is the text already passed, last character
    first; [fuel] bounds the number of steps. *)
Fixpoint spec_emphasize_from (fuel : nat) (kw bef aft : str) : str :=
  match fuel with
  | 0 => aft
  | S n =>
      match word_occurrence kw bef aft with
      | Some (m, r) => wrapped m ++ spec_emphasize_from n kw (rev m ++ bef) r
      | None =>
          match aft with
          | [] => []
          | x :: xs => x :: spec_emphasize_from n kw (x :: bef) xs
          end
      end
  end.

Definition spec_emphasize (kw text : str) : str :=
  spec_emphasize_from (S (length text)) kw [] text.

(** Keyword emphasis: the keywords of the fixed list one after another, in
    list order, each on the text the one before has left. *)
Definition spec_emphasis (text : str) : str :=
  fold_left (fun current kw => spec_emphasize kw current)
    [py "Unit"; py "Value"; py "Bullet Point"; py "Bullet Poin"; py "Item Name"]
    text.


(** A sentence-terminal mark. *)
Definition terminal_mark (c : ascii) : Prop :=
  c = "."%char \/ c = "!"%char \/ c = "?"%char.

(** A place where the text is split into sentences: the piece before it
    ends with a terminal mark, which stays there, and the whitespace that
    follows, all of it, is the boundary. *)
Definition sentence_boundary (o : occurrence) : Prop :=
  (exists s c, gap o = s ++ [c] /\ terminal_mark c)
  /\ whole o <> []
  /\ forallb is_space (whole o) = true
  /\ space_at (hd_error (rest o)) = false.

(** A piece with no place left in it where it should have been split: no
    terminal mark in it has whitespace after it. *)
Definition unbroken (s : str) : Prop :=
  forall a c x b, s = a ++ c :: x :: b -> terminal_mark c -> is_space x = false.

(** * Properties *)

(** ** Facts about the character classes *)

Lemma colon_not_key_class : key_class colon = false.
Proof. reflexivity. Qed.

Lemma colon_not_space : is_space colon = false.
Proof. reflexivity. Qed.

Lemma word_not_space (c : ascii) : is_word c = true -> is_space c = false.
Proof.
  destruct c as [[] [] [] [] [] [] [] []]; vm_compute; congruence.
Qed.

Lemma key_class_not_colon (c : ascii) :
  key_class c = true -> Ascii.eqb c colon = false.
Proof.
  intros H. destruct (Ascii.eqb_spec c colon) as [->|]; [|reflexivity].
  rewrite colon_not_key_class in H. discriminate.
Qed.

Lemma word_key_class (c : ascii) : is_word c = true -> key_class c = true.
Proof. unfold key_class. intros ->. reflexivity. Qed.

(** ** The matcher on the patterns of the program *)

Lemma span_app (p : ascii -> bool) (s : str) :
  fst (span p s) ++ snd (span p s) = s.
Proof.
  induction s as [|x xs IH]; simpl; [reflexivity|].
  destruct (p x); [|reflexivity].
  destruct (span p xs); simpl in *. now rewrite IH.
Qed.

Lemma span_all (p : ascii -> bool) (s : str) :
  forallb p (fst (span p s)) = true.
Proof.
  induction s as [|x xs IH]; simpl; [reflexivity|].
  destruct (p x) eqn:E; [|reflexivity].
  destruct (span p xs); simpl in *. now rewrite E.
Qed.

Lemma span_stop (p : ascii -> bool) (s : str) :
  match snd (span p s) with x :: _ => p x = false | [] => True end.
Proof.
  induction s as [|x xs IH]; simpl; [exact I|].
  destruct (p x) eqn:E; [|exact E].
  destruct (span p xs); simpl in *. exact IH.
Qed.

(** When the continuation cannot go on from a position that still faces a
    character of the class, only the longest run is left to try. *)
Lemma star_max (p : ascii -> bool) (g : option str)
    (k : mstate -> option mstate) :
  (forall cons x xs, p x = true -> k (MState cons (x :: xs) g) = None) ->
  forall rem cons,
    star p cons rem g k
    = k (MState (rev (fst (span p rem)) ++ cons) (snd (span p rem)) g).
Proof.
  intros Hk. induction rem as [|x xs IH]; intros cons; simpl; [reflexivity|].
  destruct (p x) eqn:E; [|reflexivity].
  rewrite IH. destruct (span p xs) as [a b] eqn:Es; simpl.
  rewrite <- app_assoc. simpl.
  destruct (k (MState (rev a ++ x :: cons) b g)); [reflexivity|].
  now apply Hk.
Qed.

(** With a continuation that always succeeds the longest run is taken. *)
Lemma star_some (p : ascii -> bool) (g : option str) :
  forall rem cons,
    star p cons rem g Some
    = Some (MState (rev (fst (span p rem)) ++ cons) (snd (span p rem)) g).
Proof.
  induction rem as [|x xs IH]; intros cons; simpl; [reflexivity|].
  destruct (p x) eqn:E; [|reflexivity].
  rewrite IH. destruct (span p xs) as [a b]; simpl.
  now rewrite <- app_assoc.
Qed.

Lemma hit_key_re (bef aft : str) :
  hit false key_re bef aft = found true (key_at aft).
Proof.
  unfold hit, match_at, key_re, key_at. cbn [rmatch].
  unfold take1 at 1. cbn [remaining consumed captured].
  destruct aft as [|x xs]; [reflexivity|].
  destruct (is_word x); [|reflexivity].
  rewrite star_max.
  2:{ intros cons y ys Hy. unfold take1. cbn [remaining].
      unfold chr_eq. now rewrite (key_class_not_colon _ Hy). }
  unfold take1. cbn [remaining consumed captured].
  destruct (snd (span key_class xs)) as [|c after]; [reflexivity|].
  unfold chr_eq. destruct (Ascii.eqb_spec c colon) as [->|]; [|reflexivity].
  cbn [length]. rewrite Nat.sub_0_r.
  change (S (length (rev (fst (span key_class xs)) ++ [x])))
    with (length (colon :: rev (fst (span key_class xs)) ++ [x])).
  rewrite firstn_all.
  cbn [rev]. rewrite rev_app_distr, rev_involutive. cbn [rev app].
  unfold found.
  assert (E : rev ((x :: fst (span key_class xs)) ++ [colon])
              = colon :: rev (fst (span key_class xs)) ++ [x]).
  { rewrite rev_app_distr. reflexivity. }
  cbn [app] in E. rewrite E. reflexivity.
Qed.

Lemma hit_sentence_re (bef aft : str) :
  hit false sentence_re bef aft = found false (sentence_at bef aft).
Proof.
  unfold hit, match_at, sentence_re, sentence_at. cbn [rmatch].
  unfold prev_char. cbn [consumed app].
  destruct bef as [|c bef']; [reflexivity|]. cbn [hd_error].
  destruct (is_terminal c); [|reflexivity].
  unfold take1. cbn [remaining consumed captured].
  destruct aft as [|x xs]; [reflexivity|].
  destruct (is_space x); [|reflexivity].
  rewrite star_some. unfold found.
  change (x :: fst (span is_space xs)) with ([x] ++ fst (span is_space xs)).
  rewrite rev_app_distr. cbn [rev app].
  destruct (rev (fst (span is_space xs)) ++ [x]) eqn:E; [|reflexivity].
  destruct (rev (fst (span is_space xs))); discriminate.
Qed.

Lemma rmatch_lit (ic : bool) (bef s : str) :
  forall st k,
    rmatch ic bef (lit s) st k
    = match lit_at ic s (remaining st) with
      | Some (m, r) => k (MState (rev m ++ consumed st) r (captured st))
      | None => None
      end.
Proof.
  induction s as [|c s' IH]; intros [cons rem g] k; cbn [lit rmatch lit_at].
  - reflexivity.
  - unfold take1. cbn [remaining consumed captured].
    destruct rem as [|x xs]; [reflexivity|].
    destruct (chr_eq ic c x); [|reflexivity].
    rewrite IH. cbn [remaining consumed captured].
    destruct (lit_at ic s' xs) as [[m r]|]; [|reflexivity].
    cbn [rev]. now rewrite <- app_assoc.
Qed.

Lemma lit_at_app (ic : bool) (s : str) :
  forall aft m r, lit_at ic s aft = Some (m, r) -> aft = m ++ r.
Proof.
  induction s as [|c s' IH]; intros aft m r; cbn [lit_at].
  - intros [= <- <-]. reflexivity.
  - destruct aft as [|x xs]; [discriminate|].
    destruct (chr_eq ic c x); [|discriminate].
    destruct (lit_at ic s' xs) as [[m' r']|] eqn:E; [|discriminate].
    intros [= <- <-]. cbn [app]. f_equal. now apply IH.
Qed.

Lemma lit_at_exact (s : str) :
  forall aft m r, lit_at false s aft = Some (m, r) -> m = s.
Proof.
  induction s as [|c s' IH]; intros aft m r; cbn [lit_at].
  - intros [= <- <-]. reflexivity.
  - destruct aft as [|x xs]; [discriminate|].
    unfold chr_eq. destruct (Ascii.eqb_spec x c) as [->|]; [|discriminate].
    destruct (lit_at false s' xs) as [[m' r']|] eqn:E; [|discriminate].
    intros [= <- <-]. f_equal. eapply IH, E.
Qed.

Lemma lit_at_prefix (s r : str) : lit_at false s (s ++ r) = Some (s, r).
Proof.
  induction s as [|c s' IH]; cbn [lit_at app]; [reflexivity|].
  unfold chr_eq. rewrite Ascii.eqb_refl. now rewrite IH.
Qed.

Lemma lit_at_folded (s : str) :
  forall aft m r, lit_at true s aft = Some (m, r) -> map lower m = map lower s.
Proof.
  induction s as [|c s' IH]; intros aft m r; cbn [lit_at].
  - intros [= <- <-]. reflexivity.
  - destruct aft as [|x xs]; [discriminate|].
    unfold chr_eq. destruct (Ascii.eqb_spec (lower x) (lower c)) as [E|];
      [|discriminate].
    destruct (lit_at true s' xs) as [[m' r']|] eqn:E'; [|discriminate].
    intros [= <- <-]. cbn [map]. rewrite E. f_equal. eapply IH, E'.
Qed.

Lemma hit_keyword_re (kw bef aft : str) :
  hit true (keyword_re kw) bef aft = found true (keyword_at kw bef aft).
Proof.
  unfold hit, match_at, keyword_re, keyword_at. cbn [rmatch].
  unfold at_boundary at 1, prev_char, next_char.
  cbn [remaining consumed captured app]. fold (boundary bef aft).
  destruct (boundary bef aft); [|reflexivity].
  rewrite rmatch_lit. cbn [remaining consumed captured].
  destruct (lit_at true kw aft) as [[m r]|]; [|reflexivity].
  unfold at_boundary, prev_char, next_char.
  cbn [remaining consumed captured length]. rewrite app_nil_r.
  fold (boundary (rev m ++ bef) r).
  destruct (boundary (rev m ++ bef) r); [|reflexivity].
  rewrite Nat.sub_0_r, firstn_all, rev_involutive.
  unfold found. destruct m as [|c m']; [reflexivity|].
  destruct (rev (c :: m')) eqn:E; [|reflexivity].
  apply (f_equal (@length _)) in E. rewrite length_rev in E. discriminate.
Qed.

Lemma rmatch_alternation (bef : str) (keys : list str) :
  forall st k,
    (forall st', k st' <> None) ->
    rmatch false bef (alternation (map lit keys)) st k
    = match alt_at keys (remaining st) with
      | Some (m, r) => k (MState (rev m ++ consumed st) r (captured st))
      | None => None
      end.
Proof.
  induction keys as [|a keys IH]; intros st k Hk.
  - destruct st; reflexivity.
  - destruct keys as [|b keys'].
    + cbn [map alternation alt_at]. apply rmatch_lit.
    + change (alternation (map lit (a :: b :: keys')))
        with (Alt (lit a) (alternation (map lit (b :: keys')))).
      change (alt_at (a :: b :: keys') (remaining st))
        with (match lit_at false a (remaining st) with
              | Some x => Some x
              | None => alt_at (b :: keys') (remaining st)
              end).
      cbn [rmatch]. rewrite rmatch_lit.
      destruct (lit_at false a (remaining st)) as [[m r]|].
      * destruct (k (MState (rev m ++ consumed st) r (captured st))) eqn:E;
          [reflexivity|]. now apply Hk in E.
      * now apply IH.
Qed.

Lemma hit_split_re (keys : list str) (bef aft : str) :
  hit false (split_re keys) bef aft = found true (alt_at keys aft).
Proof.
  unfold hit, match_at, split_re. cbn [rmatch].
  rewrite rmatch_alternation by discriminate.
  cbn [remaining consumed captured length].
  destruct (alt_at keys aft) as [[m r]|]; [|reflexivity].
  rewrite app_nil_r, Nat.sub_0_r, firstn_all, rev_involutive.
  unfold found. destruct m as [|c m']; [reflexivity|].
  destruct (rev (c :: m')) eqn:E; [|reflexivity].
  apply (f_equal (@length _)) in E. rewrite length_rev in E. discriminate.
Qed.

(** ** The scan *)

Lemma star_whole (p : ascii -> bool) (g : option str)
    (k : mstate -> option mstate) (res : mstate) :
  forall rem cons,
    star p cons rem g k = Some res ->
    exists st1, whole_text st1 = rev cons ++ rem /\ k st1 = Some res.
Proof.
  induction rem as [|x xs IH]; intros cons; cbn [star].
  - intros H. now exists (MState cons [] g).
  - destruct (p x).
    + destruct (star p (x :: cons) xs g k) eqn:E.
      * intros [= ->]. destruct (IH _ E) as [st1 [H1 H2]].
        exists st1. split; [|exact H2].
        rewrite H1. cbn [rev]. now rewrite <- app_assoc.
      * intros H. now exists (MState cons (x :: xs) g).
    + intros H. now exists (MState cons (x :: xs) g).
Qed.

Lemma take1_whole (p : ascii -> bool) (st : mstate)
    (k : mstate -> option mstate) (res : mstate) :
  take1 p st k = Some res ->
  exists st1, whole_text st1 = whole_text st /\ k st1 = Some res.
Proof.
  unfold take1. destruct st as [cons rem g]. cbn [remaining consumed captured].
  destruct rem as [|x xs]; [discriminate|].
  destruct (p x); [|discriminate].
  intros H. exists (MState (x :: cons) xs g). split; [|exact H].
  unfold whole_text. cbn [consumed remaining rev]. now rewrite <- app_assoc.
Qed.

(** A match attempt never changes the text it works on: the continuation
    is entered on the same text, split further to the right or not. *)
Lemma rmatch_whole (ic : bool) (bef : str) (r : regex) :
  forall st k res,
    rmatch ic bef r st k = Some res ->
    exists st1, whole_text st1 = whole_text st /\ k st1 = Some res.
Proof.
  induction r as [|c|p|r1 IH1 r2 IH2|r1 IH1 r2 IH2|p|p| |p|r1 IH1];
    intros st k res; cbn [rmatch].
  - intros H. now exists st.
  - apply take1_whole.
  - apply take1_whole.
  - intros H. destruct (IH1 _ _ _ H) as [st1 [E1 H1]].
    destruct (IH2 _ _ _ H1) as [st2 [E2 H2]].
    exists st2. split; [congruence|exact H2].
  - destruct (rmatch ic bef r1 st k) eqn:E.
    + intros [= ->]. now apply IH1.
    + now apply IH2.
  - intros H. destruct (star_whole _ _ _ _ _ H) as [st1 [E1 H1]].
    now exists st1.
  - intros H. destruct (take1_whole _ _ _ H) as [st1 [E1 H1]].
    destruct (star_whole _ _ _ _ _ H1) as [st2 [E2 H2]].
    exists st2. split; [|exact H2]. rewrite E2. exact E1.
  - destruct (at_boundary bef st); [|discriminate]. intros H. now exists st.
  - destruct (prev_char bef st) as [c|]; [|discriminate].
    destruct (p c); [|discriminate]. intros H. now exists st.
  - intros H. destruct (IH1 _ _ _ H) as [st1 [E1 H1]].
    eexists. split; [|exact H1]. exact E1.
Qed.

Lemma hit_whole (ic : bool) (r : regex) (bef aft : str) (st : mstate) :
  hit ic r bef aft = Some st ->
  rev (consumed st) ++ remaining st = aft /\ consumed st <> [].
Proof.
  unfold hit, match_at. destruct (rmatch ic bef r _ Some) as [res|] eqn:E;
    [|discriminate].
  destruct (rmatch_whole _ _ _ _ _ E) as [st1 [E1 [= ->]]].
  destruct res as [[|c cs] rem g]; [discriminate|].
  intros [= <-]. split; [exact E1|discriminate].
Qed.

Lemma star_grows (p : ascii -> bool) (g : option str)
    (k : mstate -> option mstate) (res : mstate) :
  forall rem cons,
    star p cons rem g k = Some res ->
    exists st1 d, consumed st1 = d ++ cons /\ k st1 = Some res.
Proof.
  induction rem as [|x xs IH]; intros cons; cbn [star].
  - intros H. exists (MState cons [] g), []. now split.
  - destruct (p x).
    + destruct (star p (x :: cons) xs g k) eqn:E.
      * intros [= ->]. destruct (IH _ E) as [st1 [d [H1 H2]]].
        exists st1, (d ++ [x]). split; [|exact H2].
        rewrite H1, <- app_assoc. reflexivity.
      * intros H. exists (MState cons (x :: xs) g), []. now split.
    + intros H. exists (MState cons (x :: xs) g), []. now split.
Qed.

Lemma take1_grows (p : ascii -> bool) (st : mstate)
    (k : mstate -> option mstate) (res : mstate) :
  take1 p st k = Some res ->
  exists st1 d, consumed st1 = d ++ consumed st /\ d <> [] /\ k st1 = Some res.
Proof.
  unfold take1. destruct (remaining st) as [|x xs]; [discriminate|].
  destruct (p x); [|discriminate].
  intros H. exists (MState (x :: consumed st) xs (captured st)), [x].
  repeat split; [discriminate|exact H].
Qed.

(** A match attempt only adds to what it has taken, and adds something
    when the pattern is one that takes a character. *)
Lemma rmatch_grows (ic : bool) (bef : str) (r : regex) :
  forall st k res,
    rmatch ic bef r st k = Some res ->
    exists st1 d,
      consumed st1 = d ++ consumed st
      /\ (takes_some r = true -> d <> [])
      /\ k st1 = Some res.
Proof.
  induction r as [|c|p|r1 IH1 r2 IH2|r1 IH1 r2 IH2|p|p| |p|r1 IH1];
    intros st k res; cbn [rmatch takes_some].
  - intros H. exists st, []. split; [reflexivity|]. split; [discriminate|exact H].
  - intros H. destruct (take1_grows _ _ _ H) as [st1 [d [H1 [H2 H3]]]].
    exists st1, d. split; [exact H1|]. split; [intros _; exact H2|exact H3].
  - intros H. destruct (take1_grows _ _ _ H) as [st1 [d [H1 [H2 H3]]]].
    exists st1, d. split; [exact H1|]. split; [intros _; exact H2|exact H3].
  - intros H. destruct (IH1 _ _ _ H) as [st1 [d1 [E1 [N1 H1]]]].
    destruct (IH2 _ _ _ H1) as [st2 [d2 [E2 [N2 H2]]]].
    exists st2, (d2 ++ d1). split; [|split; [|exact H2]].
    + rewrite E2, E1. now rewrite app_assoc.
    + intros Ht. apply orb_true_iff in Ht. intros E.
      apply app_eq_nil in E. destruct E as [-> ->].
      destruct Ht as [Ht|Ht]; [now apply N1|now apply N2].
  - destruct (rmatch ic bef r1 st k) eqn:E.
    + intros [= ->]. destruct (IH1 _ _ _ E) as [st1 [d [E1 [N1 H1]]]].
      exists st1, d. split; [exact E1|]. split; [|exact H1].
      intros Ht. apply andb_true_iff in Ht. now apply N1.
    + intros H. destruct (IH2 _ _ _ H) as [st1 [d [E1 [N1 H1]]]].
      exists st1, d. split; [exact E1|]. split; [|exact H1].
      intros Ht. apply andb_true_iff in Ht. now apply N1.
  - intros H. destruct (star_grows _ _ _ _ _ H) as [st1 [d [E1 H1]]].
    exists st1, d. split; [exact E1|]. split; [discriminate|exact H1].
  - intros H. destruct (take1_grows _ _ _ H) as [st1 [d [E1 [N1 H1]]]].
    destruct (star_grows _ _ _ _ _ H1) as [st2 [d2 [E2 H2]]].
    exists st2, (d2 ++ d). split; [|split; [|exact H2]].
    + rewrite E2, E1. now rewrite app_assoc.
    + intros _ E. apply app_eq_nil in E. now destruct E as [_ ->].
  - destruct (at_boundary bef st); [|discriminate]. intros H.
    exists st, []. split; [reflexivity|]. split; [discriminate|exact H].
  - destruct (prev_char bef st) as [c|]; [|discriminate].
    destruct (p c); [|discriminate]. intros H.
    exists st, []. split; [reflexivity|]. split; [discriminate|exact H].
  - intros H. destruct (IH1 _ _ _ H) as [st1 [d [E1 [N1 H1]]]].
    eexists. exists d. split; [|split; [exact N1|exact H1]]. exact E1.
Qed.

(** For such a pattern every match is reported: leaving empty matches out
    leaves nothing out. *)
Lemma hit_match_at (ic : bool) (r : regex) (bef aft : str) :
  takes_some r = true -> hit ic r bef aft = match_at ic bef r aft.
Proof.
  intros Ht. unfold hit, match_at.
  destruct (rmatch ic bef r (MState [] aft None) Some) as [res|] eqn:E;
    [|reflexivity].
  destruct (rmatch_grows _ _ _ _ _ E) as [st1 [d [E1 [N1 [= ->]]]]].
  destruct res as [[|c cs] rem g]; [|reflexivity].
  cbn [consumed] in E1. rewrite app_nil_r in E1. subst d. now destruct (N1 Ht).
Qed.

Lemma takes_some_lit (s : str) : s <> [] -> takes_some (lit s) = true.
Proof. destruct s; [congruence|reflexivity]. Qed.

Lemma takes_some_alternation (rs : list regex) :
  rs <> [] -> Forall (fun r => takes_some r = true) rs ->
  takes_some (alternation rs) = true.
Proof.
  intros Hne H. induction H as [|r rs Hr Hrs IH]; [congruence|].
  destruct rs as [|r' rs']; [exact Hr|].
  change (alternation (r :: r' :: rs')) with (Alt r (alternation (r' :: rs'))).
  cbn [takes_some]. rewrite Hr. apply IH. discriminate.
Qed.

(** None of the patterns of the program matches the empty string. *)
Lemma patterns_take_some :
  takes_some key_re = true
  /\ takes_some sentence_re = true
  /\ (forall kw, In kw keywords_to_highlight -> takes_some (keyword_re kw) = true)
  /\ (forall keys, keys <> [] -> Forall key_shaped keys ->
        takes_some (split_re keys) = true).
Proof.
  split; [reflexivity|]. split; [reflexivity|]. split.
  - intros kw H. repeat (destruct H as [<-|H]; [reflexivity|]). destruct H.
  - intros keys Hne Hshape. cbn [split_re takes_some].
    apply takes_some_alternation.
    + destruct keys; [congruence|discriminate].
    + apply Forall_map. eapply Forall_impl; [|exact Hshape].
      intros k [w [run [-> _]]]. reflexivity.
Qed.

(** What a successful search found: the first position of the text ahead
    where the pattern hits. *)
Lemma search_spec (ic : bool) (r : regex) :
  forall aft bef skipped o,
    search ic r bef skipped aft = Some o ->
    exists g,
      gap o = rev skipped ++ g
      /\ aft = g ++ whole o ++ rest o
      /\ left o = rev g ++ bef
      /\ whole o <> []
      /\ hit ic r (left o) (whole o ++ rest o)
         = Some (MState (rev (whole o)) (rest o) (group1 o))
      /\ (forall pre c post, g = pre ++ c :: post ->
            hit ic r (rev pre ++ bef) (c :: post ++ whole o ++ rest o) = None).
Proof.
  induction aft as [|x xs IH]; intros bef skipped o; cbn [search].
  - destruct (hit ic r bef []) as [st|] eqn:E; [|discriminate].
    intros [= <-]. destruct (hit_whole _ _ _ _ E) as [Ew Ene].
    exists []. cbn [gap whole rest left group1 rev app].
    rewrite app_nil_r, rev_involutive. repeat split.
    + now rewrite Ew.
    + intros H. apply Ene. apply (f_equal (@rev _)) in H.
      now rewrite rev_involutive in H.
    + rewrite Ew, E. now destruct st.
    + intros [|? ?] ? ?; discriminate.
  - destruct (hit ic r bef (x :: xs)) as [st|] eqn:E.
    + intros [= <-]. destruct (hit_whole _ _ _ _ E) as [Ew Ene].
      exists []. cbn [gap whole rest left group1 rev app].
      rewrite app_nil_r, rev_involutive. repeat split.
      * now rewrite Ew.
      * intros H. apply Ene. apply (f_equal (@rev _)) in H.
        now rewrite rev_involutive in H.
      * rewrite Ew, E. now destruct st.
      * intros [|? ?] ? ?; discriminate.
    + intros H. destruct (IH _ _ _ H) as [g [Hg [Ha [Hl [Hn [Hh Hm]]]]]].
      exists (x :: g). cbn [rev] in Hg. rewrite <- app_assoc in Hg.
      repeat split.
      * exact Hg.
      * cbn [app]. now f_equal.
      * cbn [rev]. now rewrite <- app_assoc.
      * exact Hn.
      * exact Hh.
      * intros [|y pre] c post Hsplit.
        -- injection Hsplit as -> ->. cbn [rev app]. now rewrite <- Ha.
        -- injection Hsplit as -> ->. cbn [rev]. rewrite <- app_assoc.
           now apply Hm.
Qed.

(** A search that fails: the pattern hits nowhere in the text ahead, nor at
    its end. *)
Lemma search_none (ic : bool) (r : regex) :
  forall aft bef skipped,
    search ic r bef skipped aft = None ->
    forall pre post, aft = pre ++ post -> hit ic r (rev pre ++ bef) post = None.
Proof.
  induction aft as [|x xs IH]; intros bef skipped; cbn [search].
  - destruct (hit ic r bef []) eqn:E; [discriminate|].
    intros _ [|? ?] post; [|discriminate]. cbn [app rev]. now intros <-.
  - destruct (hit ic r bef (x :: xs)) eqn:E; [discriminate|].
    intros H [|y pre] post.
    + cbn [app rev]. now intros <-.
    + intros [= <- ->]. cbn [rev]. rewrite <- app_assoc. eapply IH; eauto.
Qed.

(** The converse: the first hit is what the search reports. *)
Lemma search_first (ic : bool) (r : regex) (st : mstate) :
  forall g bef skipped aft,
    (forall pre c post, g = pre ++ c :: post ->
       hit ic r (rev pre ++ bef) (c :: post ++ aft) = None) ->
    hit ic r (rev g ++ bef) aft = Some st ->
    search ic r bef skipped (g ++ aft)
    = Some (Occ (rev g ++ bef) (rev skipped ++ g) (rev (consumed st))
                (captured st) (remaining st)).
Proof.
  induction g as [|x g IH]; intros bef skipped aft Hmiss Hhit.
  - cbn [app rev] in *. destruct aft; cbn [search]; rewrite Hhit;
      now rewrite app_nil_r.
  - cbn [app search]. pose proof (Hmiss [] x g eq_refl) as H0.
    cbn [rev app] in H0. rewrite H0.
    cbn [rev] in Hhit. rewrite <- app_assoc in Hhit.
    rewrite (IH (x :: bef) (x :: skipped) aft).
    + cbn [rev app]. now rewrite <- !app_assoc.
    + intros pre c post ->. specialize (Hmiss (x :: pre) c post eq_refl).
      cbn [rev] in Hmiss. now rewrite <- app_assoc in Hmiss.
    + exact Hhit.
Qed.

Lemma search_miss (ic : bool) (r : regex) :
  forall aft bef skipped,
    (forall pre post, aft = pre ++ post -> hit ic r (rev pre ++ bef) post = None) ->
    search ic r bef skipped aft = None.
Proof.
  induction aft as [|x xs IH]; intros bef skipped Hmiss; cbn [search].
  - pose proof (Hmiss [] [] eq_refl) as H0. cbn [rev app] in H0.
    now rewrite H0.
  - pose proof (Hmiss [] (x :: xs) eq_refl) as H0. cbn [rev app] in H0.
    rewrite H0. apply IH.
    intros pre post ->. specialize (Hmiss (x :: pre) post eq_refl).
    cbn [rev] in Hmiss. now rewrite <- app_assoc in Hmiss.
Qed.

Lemma search_shorter (ic : bool) (r : regex) (bef skipped aft : str)
    (o : occurrence) :
  search ic r bef skipped aft = Some o -> length (rest o) < length aft.
Proof.
  intros H. destruct (search_spec _ _ _ _ _ H) as [g [_ [Ha [_ [Hn _]]]]].
  rewrite Ha, !length_app. destruct (whole o); [congruence|]. cbn [length]. lia.
Qed.

Lemma finditer_from_fuel (ic : bool) (r : regex) :
  forall n m bef aft,
    length aft < n -> length aft < m ->
    finditer_from n ic r bef aft = finditer_from m ic r bef aft.
Proof.
  induction n as [|n IH]; intros m bef aft Hn Hm; [lia|].
  destruct m as [|m]; [lia|]. cbn [finditer_from].
  destruct (search ic r bef [] aft) as [o|] eqn:E; [|reflexivity].
  pose proof (search_shorter _ _ _ _ _ E).
  rewrite (IH m) by lia. reflexivity.
Qed.

Lemma finditer_scan (ic : bool) (r : regex) (text : str) :
  finditer ic r text = scan ic r [] text.
Proof. reflexivity. Qed.

(** The scan, one search at a time. *)
Lemma scan_eq (ic : bool) (r : regex) (bef aft : str) :
  scan ic r bef aft
  = match search ic r bef [] aft with
    | None => ([], aft)
    | Some o =>
        let (os, tail) := scan ic r (rev (whole o) ++ left o) (rest o) in
        (o :: os, tail)
    end.
Proof.
  unfold scan at 1. cbn [finditer_from].
  destruct (search ic r bef [] aft) as [o|] eqn:E; [|reflexivity].
  pose proof (search_shorter _ _ _ _ _ E).
  unfold scan. rewrite (finditer_from_fuel ic r (n := length aft)
                          (m := S (length (rest o)))) by lia.
  reflexivity.
Qed.

(** Induction along the scan. *)
Lemma scan_ind (ic : bool) (r : regex)
    (P : str -> str -> list occurrence * str -> Prop) :
  (forall bef aft, search ic r bef [] aft = None -> P bef aft ([], aft)) ->
  (forall bef aft o os tail,
      search ic r bef [] aft = Some o ->
      scan ic r (rev (whole o) ++ left o) (rest o) = (os, tail) ->
      P (rev (whole o) ++ left o) (rest o) (os, tail) ->
      P bef aft (o :: os, tail)) ->
  forall bef aft, P bef aft (scan ic r bef aft).
Proof.
  intros Hnone Hsome bef aft.
  remember (length aft) as n eqn:Hn.
  revert bef aft Hn. induction n as [n IH] using lt_wf_ind.
  intros bef aft ->. rewrite scan_eq.
  destruct (search ic r bef [] aft) as [o|] eqn:E.
  - pose proof (search_shorter _ _ _ _ _ E) as Hlt.
    destruct (scan ic r (rev (whole o) ++ left o) (rest o)) as [os tail] eqn:Es.
    apply Hsome; [exact E|exact Es|].
    rewrite <- Es. eapply IH; [exact Hlt|reflexivity].
  - now apply Hnone.
Qed.

(** The matches and the text between them make up the scanned text, in
    order and without overlap. *)
Lemma scan_concat (ic : bool) (r : regex) (bef aft : str) :
  concat (map (fun o => gap o ++ whole o) (fst (scan ic r bef aft)))
  ++ snd (scan ic r bef aft) = aft.
Proof.
  apply (@scan_ind ic r
           (fun _ aft res =>
              concat (map (fun o => gap o ++ whole o) (fst res)) ++ snd res
              = aft)).
  - reflexivity.
  - intros bef' aft' o os tail Hs _ IH. cbn [fst snd map concat] in *.
    destruct (search_spec _ _ _ _ _ Hs) as [g [Hg [Ha _]]].
    cbn [rev app] in Hg. rewrite Ha, Hg, <- !app_assoc. now rewrite IH.
Qed.

(** ** The pairing loop *)

Lemma range2_from_spec :
  forall n fuel start,
    n <= fuel ->
    range2_from fuel start (start + 2 * n)
    = map (fun i => start + 2 * i) (seq 0 n).
Proof.
  induction n as [|n IH]; intros fuel start Hf.
  - rewrite Nat.mul_0_r, Nat.add_0_r. destruct fuel; cbn [range2_from seq map];
      [reflexivity|]. now rewrite Nat.ltb_irrefl.
  - destruct fuel as [|fuel]; [lia|]. cbn [range2_from].
    replace (start <? start + 2 * S n) with true
      by (symmetry; apply Nat.ltb_lt; lia).
    replace (start + 2 * S n) with (start + 2 + 2 * n) by lia.
    rewrite IH by lia. cbn [seq map]. rewrite Nat.mul_0_r, Nat.add_0_r.
    f_equal. rewrite <- seq_shift, map_map. apply map_ext. intros i. lia.
Qed.

Lemma range2_odd (n : nat) :
  range2 1 (2 * n + 1) = map (fun i => 2 * i + 1) (seq 0 n).
Proof.
  unfold range2. replace (2 * n + 1) with (1 + 2 * n) at 2 by lia.
  rewrite range2_from_spec by lia. apply map_ext. intros i. lia.
Qed.

Lemma index_nth {A : Type} (l : list A) (i : nat) (d : A) :
  i < length l -> index l i = Ok (nth i l d).
Proof.
  intros H. unfold index. now rewrite (nth_error_nth' l d H).
Qed.

Lemma pairing_loop_spec (values : list str) :
  forall idxs acc,
    (forall i, In i idxs -> i + 1 < length values) ->
    pairing_loop values idxs acc
    = Ok (acc ++ map (fun i => line (nth i values []) (nth (i + 1) values []))
                     idxs).
Proof.
  induction idxs as [|i idxs IH]; intros acc Hin; cbn [pairing_loop map].
  - now rewrite app_nil_r.
  - assert (Hi : i + 1 < length values) by (apply Hin; now left).
    unfold format_pair.
    rewrite (@index_nth _ values i []) by lia.
    rewrite (@index_nth _ values (i + 1) []) by lia.
    cbn [bind]. rewrite IH by (intros j Hj; apply Hin; now right).
    rewrite <- app_assoc. reflexivity.
Qed.

(** [re.split] with a group in the pattern interleaves the pieces and the
    groups, and ends with a piece: an odd number of elements. *)
Lemma re_split_group_length (ic : bool) (r : regex) (text : str) :
  has_group r = true ->
  length (re_split ic r text) = 2 * length (fst (finditer ic r text)) + 1.
Proof.
  intros Hg. unfold re_split. destruct (finditer ic r text) as [os tail].
  rewrite Hg, length_app. cbn [fst length].
  induction os as [|o os IH]; cbn [map concat length app]; lia.
Qed.

Lemma format_values_spec (values : list str) (n : nat) :
  length values = 2 * n + 1 ->
  format_values values
  = Ok (join [newline; newline]
          (map (fun i => line (nth (2 * i + 1) values [])
                              (nth (2 * i + 2) values []))
               (seq 0 n))).
Proof.
  intros Hlen. unfold format_values. rewrite Hlen, range2_odd.
  rewrite pairing_loop_spec.
  - cbn [bind app]. rewrite map_map. do 2 f_equal. apply map_ext.
    intros i. now replace (2 * i + 1 + 1) with (2 * i + 2) by lia.
  - intros i Hi. apply in_map_iff in Hi. destruct Hi as [j [<- Hj]].
    apply in_seq in Hj. lia.
Qed.

Lemma split_re_length (keys : list str) (text : str) :
  length (re_split false (split_re keys) text)
  = 2 * length (fst (finditer false (split_re keys) text)) + 1.
Proof. now apply re_split_group_length. Qed.

Lemma format_keys_found (text : str) (keys : list str) :
  re_findall false key_re text = keys -> keys <> [] ->
  format_content_locally text = format_pairs keys text.
Proof.
  intros Hk Hne. unfold format_content_locally. rewrite Hk.
  destruct keys; [congruence|reflexivity].
Qed.

Lemma format_no_keys (text : str) :
  re_findall false key_re text = [] ->
  format_content_locally text = Ok (format_sentences text).
Proof. intros Hk. unfold format_content_locally. now rewrite Hk. Qed.

(** ** The keys-found branch *)

(** C3: in the keys-found branch the split sequence has an odd number of
    elements, so every index [i] the loop visits is odd and has [i + 1]
    within the sequence: both reads succeed, the loop raises nothing, and no
    key is left without a value. *)
Theorem pairing_loop_in_range (text : str) (keys : list str) :
  re_findall false key_re text = keys -> keys <> [] ->
  let values := re_split false (split_re keys) text in
  Nat.odd (length values) = true
  /\ (forall i, In i (range2 1 (length values)) ->
        Nat.odd i = true
        /\ i + 1 < length values
        /\ exists k v, index values i = Ok k /\ index values (i + 1) = Ok v)
  /\ (forall i, i < length values -> Nat.odd i = true -> i + 1 < length values)
  /\ exists out, format_content_locally text = Ok out.
Proof.
  intros Hk Hne values.
  pose proof (split_re_length keys text) as Hlen. fold values in Hlen.
  set (n := length (fst (finditer false (split_re keys) text))) in Hlen.
  assert (Hodd : Nat.odd (length values) = true).
  { rewrite Hlen, Nat.add_comm. now rewrite Nat.odd_add_mul_2. }
  split; [exact Hodd|]. split; [|split].
  - intros i Hi. rewrite Hlen, range2_odd in Hi.
    apply in_map_iff in Hi. destruct Hi as [j [<- Hj]]. apply in_seq in Hj.
    split; [|split].
    + rewrite Nat.add_comm. now rewrite Nat.odd_add_mul_2.
    + lia.
    + exists (nth (2 * j + 1) values []), (nth (2 * j + 1 + 1) values []).
      split; apply index_nth; lia.
  - intros i Hi Hio.
    destruct (Nat.eq_dec (i + 1) (length values)) as [E|]; [|lia].
    exfalso. rewrite <- E in Hodd. rewrite Nat.add_1_r, Nat.odd_succ in Hodd.
    rewrite <- Nat.negb_odd in Hodd. rewrite Hio in Hodd. discriminate.
  - rewrite (@format_keys_found text keys Hk Hne). unfold format_pairs. fold values.
    rewrite (@format_values_spec values _ Hlen). eauto.
Qed.

Lemma pairing_loop_in_range_witness :
  exists out,
    format_content_locally (py "Color: red Size: 4 Unit") = Ok out.
Proof.
  destruct (@pairing_loop_in_range (py "Color: red Size: 4 Unit")
              [py "Color:"; py "red Size:"]) as [_ [_ [_ H]]].
  - vm_compute. reflexivity.
  - discriminate.
  - exact H.
Defined.

(** ** The no-keys branch *)

Lemma terminal_not_space (c : ascii) : is_terminal c = true -> is_space c = false.
Proof.
  destruct c as [[] [] [] [] [] [] [] []]; vm_compute; congruence.
Qed.

Lemma lstrip_spaces (s : str) : forallb is_space s = true -> lstrip s = [].
Proof.
  induction s as [|c s IH]; cbn [forallb lstrip]; [reflexivity|].
  intros H. apply andb_true_iff in H. destruct H as [-> H]. now apply IH.
Qed.

Lemma strip_spaces (s : str) : forallb is_space s = true -> strip s = [].
Proof. intros H. unfold strip. now rewrite (lstrip_spaces s H). Qed.

Lemma forallb_suffix {A : Type} (p : A -> bool) (pre post : list A) :
  forallb p (pre ++ post) = true -> forallb p pre = true /\ forallb p post = true.
Proof. rewrite forallb_app. apply andb_true_iff. Qed.

(** No key starts in a text made of whitespace. *)
Lemma no_key_in_spaces (text bef : str) :
  forallb is_space text = true -> search false key_re bef [] text = None.
Proof.
  intros H. apply search_miss. intros pre post ->.
  apply forallb_suffix in H. destruct H as [_ H].
  rewrite hit_key_re. destruct post as [|x xs]; [reflexivity|].
  cbn [forallb] in H. apply andb_true_iff in H. destruct H as [Hx _].
  unfold key_at. destruct (is_word x) eqn:E; [|reflexivity].
  apply word_not_space in E. congruence.
Qed.

(** Nor is there a sentence boundary in it: no terminal mark to look
    behind at. *)
Lemma no_sentence_in_spaces (text : str) :
  forallb is_space text = true -> search false sentence_re [] [] text = None.
Proof.
  intros H. apply search_miss. intros pre post ->.
  apply forallb_suffix in H. destruct H as [H _].
  rewrite hit_sentence_re, app_nil_r. unfold sentence_at.
  destruct (rev pre) as [|c b] eqn:E; [reflexivity|].
  assert (Hin : In c pre) by (apply in_rev; rewrite E; now left).
  rewrite forallb_forall in H. specialize (H c Hin).
  destruct (is_terminal c) eqn:Et; [|reflexivity].
  apply terminal_not_space in Et. congruence.
Qed.

(** C10: a text made of whitespace only, the empty text included, formats
    to the empty string. *)
Theorem whitespace_formats_to_empty (text : str) :
  forallb is_space text = true -> format_content_locally text = Ok [].
Proof.
  intros H.
  assert (Hk : re_findall false key_re text = []).
  { unfold re_findall. rewrite finditer_scan, scan_eq.
    now rewrite (@no_key_in_spaces text [] H). }
  rewrite (format_no_keys text Hk). f_equal.
  unfold format_sentences, re_split. rewrite finditer_scan, scan_eq.
  rewrite (@no_sentence_in_spaces text H). cbn [map concat app filter].
  rewrite (@strip_spaces text H). reflexivity.
Qed.

Lemma whitespace_formats_to_empty_witness :
  format_content_locally [" "%char; newline; ascii_of_nat 9; ascii_of_nat 160]
  = Ok [].
Proof.
  apply (@whitespace_formats_to_empty
           [" "%char; newline; ascii_of_nat 9; ascii_of_nat 160]).
  vm_compute. reflexivity.
Defined.

Lemma rev_inj {A : Type} (l1 l2 : list A) : rev l1 = rev l2 -> l1 = l2.
Proof.
  intros H. apply (f_equal (@rev A)) in H. now rewrite !rev_involutive in H.
Qed.

Lemma hd_rev_all (p : ascii -> bool) (w l : str) (c : ascii) (b : str) :
  w <> [] -> forallb p w = true -> rev w ++ l = c :: b -> p c = true.
Proof.
  intros Hne Hall E. rewrite forallb_forall in Hall. apply Hall.
  destruct (rev w) as [|y ys] eqn:Er.
  - exfalso. apply Hne. apply rev_inj. now rewrite Er.
  - cbn [app] in E. injection E as -> _. apply in_rev. rewrite Er. now left.
Qed.

Lemma sentence_scan_shape (bef aft : str) :
  (forall c b, bef = c :: b -> is_terminal c = false) ->
  Forall sentence_break (fst (scan false sentence_re bef aft)).
Proof.
  apply (@scan_ind false sentence_re
           (fun bef _ res =>
              (forall c b, bef = c :: b -> is_terminal c = false) ->
              Forall sentence_break (fst res))).
  - intros; constructor.
  - clear bef aft. intros bef aft o os tail Hs _ IH Hbef. cbn [fst] in *.
    destruct (search_spec _ _ _ _ _ Hs) as [g [Hg [Ha [Hl [Hn [Hh _]]]]]].
    cbn [rev app] in Hg. rewrite hit_sentence_re in Hh.
    unfold sentence_at in Hh.
    destruct (left o) as [|t l'] eqn:El; [discriminate|].
    destruct (is_terminal t) eqn:Et; [|discriminate].
    destruct (whole o ++ rest o) as [|x xs] eqn:Ew; [discriminate|].
    destruct (is_space x) eqn:Ex; [|discriminate].
    unfold found in Hh. injection Hh as Hw Hr _.
    apply (@rev_inj _ (x :: fst (span is_space xs)) (whole o)) in Hw.
    assert (Hall : forallb is_space (whole o) = true).
    { rewrite <- Hw. cbn [forallb]. now rewrite Ex, span_all. }
    assert (Hbreak : sentence_break o).
    { repeat split.
      - destruct (rev g) as [|y ys] eqn:Eg.
        + cbn [app] in Hl. rewrite (Hbef _ _ (eq_sym Hl)) in Et. discriminate.
        + cbn [app] in Hl. injection Hl as <- _.
          exists (rev ys), t. split; [|exact Et].
          rewrite Hg. apply rev_inj. rewrite Eg, rev_app_distr.
          now rewrite rev_involutive.
      - exact Hn.
      - exact Hall.
      - rewrite <- Hr. apply span_stop. }
    constructor; [exact Hbreak|]. apply IH. intros c b Hc.
    pose proof (hd_rev_all is_space _ Hn Hall Hc) as Hsp.
    destruct (is_terminal c) eqn:Etc; [|reflexivity].
    apply terminal_not_space in Etc. congruence.
Qed.

(** ** Keyword highlighting *)

Lemma is_word_lower (c : ascii) : is_word (lower c) = is_word c.
Proof. destruct c as [[] [] [] [] [] [] [] []]; reflexivity. Qed.

Lemma is_word_folded (c d : ascii) : lower c = lower d -> is_word c = is_word d.
Proof. intros H. rewrite <- (is_word_lower c), H. apply is_word_lower. Qed.

(** Every keyword begins and ends with a word character. *)
Lemma keywords_word_ends (kw : str) :
  In kw keywords_to_highlight ->
  word_at (hd_error kw) = true /\ word_at (hd_error (rev kw)) = true.
Proof.
  intros H. repeat (destruct H as [<-|H]; [split; reflexivity|]).
  destruct H.
Qed.

Lemma word_at_folded (m kw : str) :
  map lower m = map lower kw -> word_at (hd_error m) = word_at (hd_error kw).
Proof.
  destruct m as [|c m], kw as [|k kw]; cbn [map hd_error word_at];
    try discriminate; [reflexivity|].
  intros [= H _]. now apply is_word_folded.
Qed.

Lemma keyword_hit_shape (kw bef aft : str) (st : mstate) :
  word_at (hd_error kw) = true -> word_at (hd_error (rev kw)) = true ->
  hit true (keyword_re kw) bef aft = Some st ->
  map lower (rev (consumed st)) = map lower kw
  /\ captured st = Some (rev (consumed st))
  /\ word_at (hd_error bef) = false
  /\ word_at (hd_error (remaining st)) = false.
Proof.
  intros Hfirst Hlast. rewrite hit_keyword_re. unfold keyword_at.
  destruct (boundary bef aft) eqn:Eb; [|discriminate].
  destruct (lit_at true kw aft) as [[m r]|] eqn:El; [|discriminate].
  destruct (boundary (rev m ++ bef) r) eqn:Eb'; [|discriminate].
  unfold found. destruct m as [|c m']; [discriminate|].
  intros [= <-]. cbn [consumed remaining captured].
  change (rev m' ++ [c]) with (rev (c :: m')). rewrite rev_involutive.
  pose proof (lit_at_folded _ _ El) as Hf.
  pose proof (lit_at_app _ _ _ El) as Happ.
  repeat split; [exact Hf| |].
  - unfold boundary in Eb. rewrite Happ in Eb.
    replace (word_at (hd_error ((c :: m') ++ r)))
      with (word_at (hd_error (c :: m'))) in Eb by reflexivity.
    rewrite (word_at_folded _ _ Hf), Hfirst in Eb.
    now destruct (word_at (hd_error bef)).
  - unfold boundary in Eb'.
    assert (Hr : word_at (hd_error (rev (c :: m') ++ bef)) = true).
    { assert (Hf' : map lower (rev (c :: m')) = map lower (rev kw))
        by (now rewrite !map_rev, Hf).
      rewrite <- Hlast, <- (word_at_folded _ _ Hf').
      destruct (rev (c :: m')) eqn:E; [|reflexivity].
      apply (f_equal (@length _)) in E. rewrite length_rev in E. discriminate. }
    rewrite Hr in Eb'. now destruct (word_at (hd_error r)).
Qed.

Lemma keyword_scan_shape (kw text : str) :
  word_at (hd_error kw) = true -> word_at (hd_error (rev kw)) = true ->
  forall bef aft,
    rev bef ++ aft = text ->
    Forall (whole_word_match kw text) (fst (scan true (keyword_re kw) bef aft)).
Proof.
  intros Hfirst Hlast bef aft.
  apply (@scan_ind true (keyword_re kw)
           (fun bef aft res =>
              rev bef ++ aft = text ->
              Forall (whole_word_match kw text) (fst res))).
  - intros; constructor.
  - clear bef aft. intros bef aft o os tail Hs _ IH Htext. cbn [fst] in *.
    destruct (search_spec _ _ _ _ _ Hs) as [g [Hg [Ha [Hl [Hn [Hh _]]]]]].
    destruct (keyword_hit_shape _ _ _ Hfirst Hlast Hh) as [H1 [H2 [H3 H4]]].
    cbn [consumed remaining captured] in *. rewrite rev_involutive in *.
    assert (Hpos : rev (left o) ++ whole o ++ rest o = text).
    { rewrite Hl, rev_app_distr, rev_involutive, <- app_assoc.
      now rewrite <- Ha. }
    constructor; [repeat split; assumption|].
    apply IH. now rewrite rev_app_distr, rev_involutive, <- app_assoc.
Qed.

Lemma expand_highlight (o : occurrence) :
  group1 o = Some (whole o) ->
  expand highlight_template o = span_open ++ whole o ++ span_close.
Proof.
  intros H. unfold expand, highlight_template, group_text. rewrite H.
  cbn [map concat]. now rewrite app_nil_r.
Qed.



(** ** Totality *)

Lemma format_pairs_total (keys : list str) (text : str) :
  exists out, format_pairs keys text = Ok out.
Proof.
  unfold format_pairs.
  rewrite (@format_values_spec _ _ (split_re_length keys text)). eauto.
Qed.

Lemma format_total (text : str) :
  exists out, format_content_locally text = Ok out.
Proof.
  unfold format_content_locally.
  destruct (py_not (re_findall false key_re text));
    [eauto|apply format_pairs_total].
Qed.

(** ** The argument of the formatter *)

Lemma row_get_absent (r : row) (label : string) (default : cell) :
  (forall v, ~ In (label, v) r) -> row_get r label default = default.
Proof.
  induction r as [|[l v] r IH]; intros H; cbn [row_get]; [reflexivity|].
  destruct (String.eqb_spec l label) as [->|_].
  - exfalso. apply (H v). now left.
  - apply IH. intros v' Hv'. apply (H v'). now right.
Qed.

Lemma row_get_present (r : row) (label : string) (default v : cell) :
  NoDup (map fst r) -> In (label, v) r -> row_get r label default = v.
Proof.
  induction r as [|[l w] r IH]; intros Hnd Hin; [destruct Hin|].
  cbn [row_get]. cbn [map fst] in Hnd. inversion Hnd as [|? ? Hnot Hnd']; subst.
  destruct Hin as [[= -> ->]|Hin].
  - now rewrite String.eqb_refl.
  - destruct (String.eqb_spec l label) as [->|_].
    + exfalso. apply Hnot. apply in_map_iff. now exists (label, v).
    + now apply IH.
Qed.

(** C8 (what the code does): the fallback text is the default of the
    lookup, used only for a row that has no content label at all.  A row
    whose content cell is the missing-value marker gives the text "nan", and
    one whose content cell is the empty text gives the empty text; neither
    is replaced by the fallback.  The fallback text itself has no keyword in
    it and is highlighted to itself. *)
Theorem missing_content_not_replaced :
  (forall (r : row) (v : cell),
     NoDup (map fst r) -> In ("catalog_content"%string, v) r ->
     raw_description r = py_str v)
  /\ raw_description
       [("sample_id"%string, CellStr (py "7"));
        ("catalog_content"%string, CellNaN);
        ("image_link"%string, CellStr (py "https://example.org/7.jpg"))]
     = py "nan"
  /\ format_content_locally (py "nan") = Ok (py "&bull; nan")
  /\ raw_description
       [("sample_id"%string, CellStr (py "7"));
        ("catalog_content"%string, CellStr []);
        ("image_link"%string, CellStr (py "https://example.org/7.jpg"))]
     = []
  /\ format_content_locally [] = Ok []
  /\ (forall r : row,
        (forall v, ~ In ("catalog_content"%string, v) r) ->
        raw_description r = fallback)
  /\ highlight fallback = fallback
  /\ format_content_locally fallback
     = Ok (py "&bull; No description available.").
Proof.
  split; [|repeat split; try (vm_compute; reflexivity)].
  - intros r v Hnd Hin. unfold raw_description.
    now rewrite (@row_get_present r _ (CellStr fallback) v Hnd Hin).
  - intros r H. unfold raw_description. now rewrite row_get_absent.
Qed.

(** ** The key scan *)

Lemma key_at_nonempty (aft m r : str) : key_at aft = Some (m, r) -> m <> [].
Proof.
  unfold key_at. destruct aft as [|x xs]; [discriminate|].
  destruct (is_word x); [|discriminate].
  destruct (snd (span key_class xs)) as [|c after]; [discriminate|].
  destruct (Ascii.eqb c colon); [|discriminate].
  intros [= <- _]. discriminate.
Qed.

Lemma found_none (g : bool) (o : option (str * str)) :
  (forall m r, o = Some (m, r) -> m <> []) -> found g o = None -> o = None.
Proof.
  destruct o as [[[|c m] r]|]; cbn [found]; intros H; try discriminate.
  - now destruct (H [] r eq_refl).
  - reflexivity.
Qed.

Lemma found_some (g : bool) (o : option (str * str)) (st : mstate) :
  found g o = Some st ->
  o = Some (rev (consumed st), remaining st)
  /\ captured st = (if g then Some (rev (consumed st)) else None).
Proof.
  destruct o as [[[|c m] r]|]; cbn [found]; try discriminate.
  intros [= <-]. cbn [consumed remaining captured].
  change (rev m ++ [c]) with (rev (c :: m)). rewrite rev_involutive. now split.
Qed.

Lemma key_at_none (bef aft : str) :
  hit false key_re bef aft = None -> key_at aft = None.
Proof.
  rewrite hit_key_re. apply found_none. intros m r. apply key_at_nonempty.
Qed.

Lemma key_at_shape (aft m r : str) :
  key_at aft = Some (m, r) -> key_shaped m /\ aft = m ++ r.
Proof.
  unfold key_at. destruct aft as [|x xs]; [discriminate|].
  destruct (is_word x) eqn:Ex; [|discriminate].
  destruct (snd (span key_class xs)) as [|c after] eqn:Es; [discriminate|].
  destruct (Ascii.eqb_spec c colon) as [->|]; [|discriminate].
  intros [= <- <-]. split.
  - exists x, (fst (span key_class xs)). repeat split; [exact Ex|].
    apply span_all.
  - cbn [app]. f_equal. rewrite <- app_assoc. cbn [app]. rewrite <- Es.
    symmetry. apply span_app.
Qed.

Lemma span_run (p : ascii -> bool) (run : str) (c : ascii) (s : str) :
  forallb p run = true -> p c = false ->
  span p (run ++ c :: s) = (run, c :: s).
Proof.
  intros Hrun Hc. induction run as [|x run IH]; cbn [app span].
  - now rewrite Hc.
  - cbn [forallb] in Hrun. apply andb_true_iff in Hrun.
    destruct Hrun as [-> Hrun]. now rewrite (IH Hrun).
Qed.

(** A text that begins with something of the shape of a key has that very
    key at its head. *)
Lemma key_at_shaped (k r : str) : key_shaped k -> key_at (k ++ r) = Some (k, r).
Proof.
  intros [w [run [-> [Hw Hrun]]]]. cbn [app key_at]. rewrite Hw.
  rewrite <- app_assoc. cbn [app].
  rewrite (span_run key_class run colon r Hrun colon_not_key_class).
  cbn [fst snd]. now rewrite Ascii.eqb_refl.
Qed.

Lemma key_scan_shape (text : str) :
  forall bef aft,
    rev bef ++ aft = text ->
    Forall (key_occurrence text) (fst (scan false key_re bef aft))
    /\ (forall pre post,
          snd (scan false key_re bef aft) = pre ++ post -> key_at post = None).
Proof.
  intros bef aft.
  apply (@scan_ind false key_re
           (fun bef aft res =>
              rev bef ++ aft = text ->
              Forall (key_occurrence text) (fst res)
              /\ (forall pre post, snd res = pre ++ post -> key_at post = None))).
  - clear bef aft. intros bef aft Hs _. split; [constructor|].
    cbn [snd]. intros pre post Hsplit.
    eapply key_at_none, search_none; eauto.
  - clear bef aft. intros bef aft o os tail Hs _ IH Htext. cbn [fst snd] in *.
    destruct (search_spec _ _ _ _ _ Hs) as [g [Hg [Ha [Hl [Hn [Hh Hm]]]]]].
    cbn [rev app] in Hg. rewrite hit_key_re in Hh.
    apply found_some in Hh. cbn [consumed remaining captured] in Hh.
    rewrite rev_involutive in Hh. destruct Hh as [Hk Hgrp].
    assert (Hpos : rev (left o) ++ whole o ++ rest o = text).
    { rewrite Hl, rev_app_distr, rev_involutive, <- app_assoc.
      now rewrite <- Ha. }
    destruct IH as [IH1 IH2].
    { now rewrite rev_app_distr, rev_involutive, <- app_assoc. }
    split; [|exact IH2]. constructor; [|exact IH1].
    repeat split.
    + apply (key_at_shape _ Hk).
    + exact Hgrp.
    + exact Hpos.
    + intros pre c post Hsplit. rewrite Hg in Hsplit.
      eapply key_at_none, Hm, Hsplit.
Qed.

Lemma key_findall_whole (text : str) :
  re_findall false key_re text = map whole (fst (finditer false key_re text)).
Proof.
  unfold re_findall. cbn [has_group key_re].
  destruct (@key_scan_shape text [] text eq_refl) as [H _].
  rewrite <- finditer_scan in H.
  induction H as [|o os Ho _ IH]; cbn [map]; [reflexivity|].
  rewrite IH. f_equal. unfold group_text.
  destruct Ho as [_ [-> _]]. reflexivity.
Qed.

Lemma py_not_false {A : Type} (l : list A) : py_not l = false <-> l <> [].
Proof. destruct l; cbn [py_not]; split; congruence. Qed.

(** C7, as stated, fails on the text " :".  A scan for "one or more
    word/space/digit characters, then a colon" finds the match " :" there,
    but the formatter finds no key and takes the no-keys branch. *)
Lemma key_scan_counterexample :
  re_findall false spec_key_re (py " :") = [py " :"]
  /\ re_findall false key_re (py " :") = []
  /\ format_content_locally (py " :") = Ok (py "&bull; :")
  /\ ~ (py_not (re_findall false spec_key_re (py " :")) = false ->
        py_not (re_findall false key_re (py " :")) = false).
Proof.
  repeat split; try (vm_compute; reflexivity).
  intros H. assert (E : py_not (re_findall false spec_key_re (py " :")) = false)
    by (vm_compute; reflexivity).
  apply H in E. vm_compute in E. discriminate.
Qed.

(** C7, amended: a candidate key is a word character, then any number of
    word/space/digit characters, then a colon.  The keys are found by one
    scan from left to right: they lie in the text in the order found,
    without overlap, each one the first key that starts at or after the end
    of the one before, and no key starts in the text left after the last.
    The keys-found branch is taken exactly when the scan finds a key, which
    is exactly when the text holds something of that shape. *)
Theorem key_scan_first_word_char (text : str) :
  let os := fst (finditer false key_re text) in
  let tail := snd (finditer false key_re text) in
  let keys := re_findall false key_re text in
  keys = map whole os
  /\ Forall (key_occurrence text) os
  /\ text = concat (map (fun o => gap o ++ whole o) os) ++ tail
  /\ (forall pre post, tail = pre ++ post -> key_at post = None)
  /\ (py_not keys = false <->
      exists pre k post, text = pre ++ k ++ post /\ key_shaped k)
  /\ (py_not keys = false -> format_content_locally text = format_pairs keys text)
  /\ (py_not keys = true -> format_content_locally text = Ok (format_sentences text)).
Proof.
  intros os tail keys.
  destruct (@key_scan_shape text [] text eq_refl) as [Hocc Htail].
  rewrite <- finditer_scan in Hocc, Htail. fold os in Hocc. fold tail in Htail.
  assert (Hkeys : keys = map whole os) by apply key_findall_whole.
  assert (Hcat : text = concat (map (fun o => gap o ++ whole o) os) ++ tail).
  { unfold os, tail. rewrite finditer_scan. symmetry. apply scan_concat. }
  split; [exact Hkeys|]. split; [exact Hocc|]. split; [exact Hcat|].
  split; [exact Htail|]. split; [|split].
  - rewrite py_not_false, Hkeys. split.
    + intros Hne. destruct Hocc as [|o os' Ho _]; [now destruct Hne|].
      destruct Ho as [Hs [_ [Hpos _]]].
      exists (rev (left o)), (whole o), (rest o). now split.
    + intros [pre [k [post [Htext Hk]]]] Hnil.
      destruct os as [|o os']; [|discriminate].
      cbn [map concat app] in Hcat. rewrite <- Hcat in Htail.
      pose proof (key_at_shaped post Hk) as Hat.
      rewrite (Htail pre (k ++ post) Htext) in Hat. discriminate.
  - intros Hf. unfold format_content_locally. fold keys. now rewrite Hf.
  - intros Ht. unfold format_content_locally. fold keys. now rewrite Ht.
Qed.

(** ** Splitting by the keys found *)

Lemma alt_at_sound (keys : list str) (aft m r : str) :
  keys <> [] -> alt_at keys aft = Some (m, r) -> In m keys /\ aft = m ++ r.
Proof.
  induction keys as [|a keys IH]; intros Hne; [now destruct Hne|].
  destruct keys as [|b keys'].
  - cbn [alt_at]. intros H.
    pose proof (lit_at_exact _ _ H) as ->. split; [now left|].
    now apply lit_at_app in H.
  - change (alt_at (a :: b :: keys') aft)
      with (match lit_at false a aft with
            | Some x => Some x
            | None => alt_at (b :: keys') aft
            end).
    destruct (lit_at false a aft) as [[m' r']|] eqn:E.
    + intros [= -> ->]. pose proof (lit_at_exact _ _ E) as ->.
      split; [now left|]. now apply lit_at_app in E.
    + intros H. destruct IH as [Hin Happ]; [discriminate|exact H|].
      split; [now right|exact Happ].
Qed.

Lemma alt_at_complete (keys : list str) (k r : str) :
  In k keys -> exists m r', alt_at keys (k ++ r) = Some (m, r').
Proof.
  induction keys as [|a keys IH]; intros Hin; [destruct Hin|].
  destruct keys as [|b keys'].
  - destruct Hin as [->|[]]. cbn [alt_at]. rewrite lit_at_prefix. eauto.
  - change (alt_at (a :: b :: keys') (k ++ r))
      with (match lit_at false a (k ++ r) with
            | Some x => Some x
            | None => alt_at (b :: keys') (k ++ r)
            end).
    destruct (lit_at false a (k ++ r)) as [[m' r']|] eqn:E; [eauto|].
    destruct Hin as [->|Hin]; [|now apply IH].
    rewrite lit_at_prefix in E. discriminate.
Qed.

(** Where no key starts, none of the key literals matches. *)
Lemma split_hit_none (keys : list str) (bef aft : str) :
  Forall key_shaped keys ->
  key_at aft = None -> hit false (split_re keys) bef aft = None.
Proof.
  intros Hshape Hnone. rewrite hit_split_re.
  destruct (alt_at keys aft) as [[m r]|] eqn:E; [|reflexivity].
  destruct keys as [|a keys']; [now injection E as <- <-|].
  destruct (@alt_at_sound (a :: keys') aft m r) as [Hin ->];
    [discriminate|exact E|].
  rewrite Forall_forall in Hshape.
  rewrite (key_at_shaped r (Hshape m Hin)) in Hnone. discriminate.
Qed.

(** Where a key of the list starts, the literal that matches is that key. *)
Lemma split_hit_key (keys : list str) (bef aft m r : str) :
  Forall key_shaped keys ->
  key_at aft = Some (m, r) -> In m keys ->
  hit false (split_re keys) bef aft = Some (MState (rev m) r (Some m)).
Proof.
  intros Hshape Hkey Hin. rewrite hit_split_re.
  destruct (key_at_shape _ Hkey) as [_ ->].
  destruct (@alt_at_complete keys m r Hin) as [m' [r' E]]. rewrite E.
  destruct (@alt_at_sound keys (m ++ r) m' r') as [Hin' Happ];
    [intros ->; destruct Hin|exact E|].
  rewrite Forall_forall in Hshape.
  pose proof (key_at_shaped r' (Hshape m' Hin')) as Hk'.
  rewrite <- Happ, Hkey in Hk'. injection Hk' as <- <-.
  pose proof (key_at_nonempty _ Hkey) as Hne.
  destruct m as [|c m0]; [now destruct Hne|reflexivity].
Qed.

(** The scan for the key literals finds what the scan for keys found. *)
Lemma split_scan_eq (keys : list str) :
  Forall key_shaped keys ->
  forall bef aft,
    (forall o, In o (fst (scan false key_re bef aft)) -> In (whole o) keys) ->
    scan false (split_re keys) bef aft = scan false key_re bef aft.
Proof.
  intros Hshape bef aft.
  apply (@scan_ind false key_re
           (fun bef aft res =>
              (forall o, In o (fst res) -> In (whole o) keys) ->
              scan false (split_re keys) bef aft = res)).
  - clear bef aft. intros bef aft Hs _. rewrite scan_eq.
    rewrite search_miss; [reflexivity|].
    intros pre post Hsplit. apply split_hit_none; [exact Hshape|].
    eapply key_at_none, search_none; eauto.
  - clear bef aft. intros bef aft o os tail Hs _ IH Hin. cbn [fst] in *.
    destruct (search_spec _ _ _ _ _ Hs) as [g [Hg [Ha [Hl [Hn [Hh Hm]]]]]].
    cbn [rev app] in Hg. rewrite hit_key_re in Hh.
    apply found_some in Hh. cbn [consumed remaining captured] in Hh.
    rewrite rev_involutive in Hh. destruct Hh as [Hk Hgrp'].
    assert (Hgrp : group1 o = Some (whole o)) by exact Hgrp'.
    assert (Hs' : search false (split_re keys) bef [] aft = Some o).
    { rewrite Ha.
      rewrite (@search_first false (split_re keys)
                 (MState (rev (whole o)) (rest o) (Some (whole o)))).
      - cbn [consumed remaining captured rev app].
        rewrite rev_involutive, <- Hl, <- Hg, <- Hgrp. now destruct o.
      - intros pre c post Hsplit. apply split_hit_none; [exact Hshape|].
        eapply key_at_none, Hm, Hsplit.
      - apply split_hit_key; [exact Hshape|exact Hk|].
        apply Hin. now left. }
    rewrite scan_eq, Hs'. rewrite IH; [reflexivity|].
    intros o' Ho'. apply Hin. now right.
Qed.

Lemma split_finditer_eq (text : str) :
  finditer false (split_re (re_findall false key_re text)) text
  = finditer false key_re text.
Proof.
  rewrite !finditer_scan.
  destruct (@key_scan_shape text [] text eq_refl) as [Hocc _].
  apply split_scan_eq.
  - rewrite key_findall_whole, finditer_scan. apply Forall_forall.
    intros k Hk. apply in_map_iff in Hk. destruct Hk as [o [<- Ho]].
    rewrite Forall_forall in Hocc. apply (Hocc o Ho).
  - intros o Ho. rewrite key_findall_whole, finditer_scan.
    now apply in_map.
Qed.

(** ** The keys in the output *)

Lemma in_order_prepend (parts : list str) (x s : str) :
  in_order parts s -> in_order parts (x ++ s).
Proof.
  destruct parts as [|p ps]; cbn [in_order]; [trivial|].
  intros [a [b [-> H]]]. exists (x ++ a), b. now rewrite <- app_assoc.
Qed.

Lemma lstrip_word (c : ascii) (s : str) : is_space c = false -> lstrip (c :: s) = c :: s.
Proof. intros H. cbn [lstrip]. now rewrite H. Qed.

(** A key has no whitespace to trim: it begins with a word character and
    ends with the colon. *)
Lemma strip_key (k : str) : key_shaped k -> strip k = k.
Proof.
  intros [w [run [-> [Hw _]]]]. unfold strip, rstrip.
  rewrite (@lstrip_word w _ (@word_not_space w Hw)).
  change (w :: run ++ [colon]) with ((w :: run) ++ [colon]).
  rewrite rev_app_distr. cbn [rev app].
  rewrite (@lstrip_word colon _ colon_not_space).
  cbn [rev]. rewrite rev_app_distr, rev_involutive. reflexivity.
Qed.

Lemma split_values (gt : occurrence -> str) (tail : str) :
  forall o os,
    concat (map (fun o => [gap o; gt o]) (o :: os)) ++ [tail]
    = gap o :: interleave (combine (map gt (o :: os)) (map gap os ++ [tail])).
Proof.
  intros o os. revert o. induction os as [|o' os IH]; intros o.
  - reflexivity.
  - change (concat (map (fun o => [gap o; gt o]) (o :: o' :: os)) ++ [tail])
      with (gap o :: gt o
            :: (concat (map (fun o => [gap o; gt o]) (o' :: os)) ++ [tail])).
    rewrite IH. reflexivity.
Qed.

Lemma nth_interleave (pairs : list (str * str)) (g0 : str) :
  forall i, i < length pairs ->
    nth (2 * i + 1) (g0 :: interleave pairs) [] = fst (nth i pairs ([], []))
    /\ nth (2 * i + 2) (g0 :: interleave pairs) [] = snd (nth i pairs ([], [])).
Proof.
  revert g0. induction pairs as [|p pairs IH]; intros g0 i Hi;
    [cbn [length] in Hi; lia|].
  destruct i as [|i].
  - split; reflexivity.
  - cbn [length] in Hi. destruct (IH (snd p) i) as [H1 H2]; [lia|].
    replace (2 * S i + 1) with (S (S (2 * i + 1))) by lia.
    replace (2 * S i + 2) with (S (S (2 * i + 2))) by lia.
    split; [exact H1|exact H2].
Qed.

Lemma length_interleave (pairs : list (str * str)) :
  length (interleave pairs) = 2 * length pairs.
Proof.
  induction pairs as [|p pairs IH]; [reflexivity|].
  change (interleave (p :: pairs)) with (fst p :: snd p :: interleave pairs).
  cbn [length]. rewrite IH. lia.
Qed.

Lemma map_nth_seq {A B : Type} (f : A -> B) (d : A) (l : list A) :
  map (fun i => f (nth i l d)) (seq 0 (length l)) = map f l.
Proof.
  induction l as [|a l IH]; [reflexivity|].
  cbn [length seq map nth]. f_equal.
  rewrite <- seq_shift, map_map. exact IH.
Qed.

Lemma format_values_interleave (g0 : str) (pairs : list (str * str)) :
  format_values (g0 :: interleave pairs)
  = Ok (join [newline; newline] (map (fun p => line (fst p) (snd p)) pairs)).
Proof.
  rewrite (@format_values_spec _ (length pairs))
    by (cbn [length]; rewrite length_interleave; lia).
  do 2 f_equal.
  rewrite <- (map_nth_seq (fun p => line (fst p) (snd p)) ([], []) pairs).
  apply map_ext_in. intros i Hi. apply in_seq in Hi.
  destruct (@nth_interleave pairs g0 i) as [-> ->]; [lia|reflexivity].
Qed.

Lemma in_order_scan (os : list occurrence) (tail : str) :
  in_order (map whole os) (concat (map (fun o => gap o ++ whole o) os) ++ tail).
Proof.
  induction os as [|o os IH]; cbn [map in_order concat]; [trivial|].
  exists (gap o), (concat (map (fun o => gap o ++ whole o) os) ++ tail).
  split; [now rewrite <- !app_assoc|exact IH].
Qed.

Lemma in_order_lines (f : str -> str) (sep : str) :
  forall keys vals,
    length vals = length keys ->
    in_order (map bold keys)
      (join sep (map (fun p => bold (fst p) ++ f (snd p)) (combine keys vals))).
Proof.
  induction keys as [|k keys IH]; intros vals Hlen; cbn [map in_order];
    [trivial|].
  destruct vals as [|v vals]; [discriminate|]. cbn [combine map fst snd].
  injection Hlen as Hlen. specialize (IH vals Hlen).
  exists []. cbn [app].
  destruct (map (fun p => bold (fst p) ++ f (snd p)) (combine keys vals))
    as [|l ls] eqn:E.
  - exists (f v). cbn [join]. split; [reflexivity|].
    destruct keys; [exact I|]. destruct vals; discriminate.
  - exists (f v ++ sep ++ join sep (l :: ls)).
    split; [cbn [join]; now rewrite <- app_assoc|].
    rewrite app_assoc. now apply in_order_prepend.
Qed.

(** C2: when the text holds a key, the output holds every key found by the
    scan, between bold marks, and the bold keys follow one another in the
    output in the order in which the keys follow one another in the text.
    Each line of the output is a bold key, a blank and the highlighted
    value that follows the key in the text. *)
Theorem bold_keys_in_order (text : str) (keys : list str) :
  re_findall false key_re text = keys -> keys <> [] ->
  exists g0 vals out,
    re_split false (split_re keys) text = g0 :: interleave (combine keys vals)
    /\ length vals = length keys
    /\ format_content_locally text = Ok out
    /\ out = join [newline; newline]
               (map (fun p => bold (fst p) ++ py " " ++ highlight (strip (snd p)))
                    (combine keys vals))
    /\ in_order keys text
    /\ in_order (map bold keys) out.
Proof.
  intros Hk Hne.
  destruct (@key_scan_shape text [] text eq_refl) as [Hocc _].
  rewrite <- finditer_scan in Hocc.
  pose proof (key_findall_whole text) as Hw. rewrite Hk in Hw.
  pose proof (split_finditer_eq text) as Heq. rewrite Hk in Heq.
  pose proof (scan_concat false key_re [] text) as Hcat.
  rewrite <- finditer_scan in Hcat.
  destruct (finditer false key_re text) as [os tail] eqn:Ef.
  cbn [fst snd] in *.
  destruct os as [|o os]; [now destruct Hne|].
  assert (Hgt : map group_text (o :: os) = keys).
  { rewrite Hw. clear -Hocc. induction Hocc as [|o' os' Ho _ IH];
      [reflexivity|]. cbn [map]. rewrite IH. f_equal. unfold group_text.
    now destruct Ho as [_ [-> _]]. }
  assert (Hvalues : re_split false (split_re keys) text
                    = gap o :: interleave (combine keys (map gap os ++ [tail]))).
  { unfold re_split. rewrite Heq. cbn [has_group split_re].
    now rewrite split_values, Hgt. }
  assert (Hlen : length (map gap os ++ [tail]) = length keys).
  { rewrite Hw, length_app, !length_map. cbn [length]. lia. }
  assert (Hstrip : forall k, In k keys -> strip k = k).
  { intros k Hin. rewrite Hw in Hin. apply in_map_iff in Hin.
    destruct Hin as [o' [<- Ho']]. rewrite Forall_forall in Hocc.
    apply strip_key. apply (Hocc o' Ho'). }
  assert (Hlines :
            map (fun p => line (fst p) (snd p))
                (combine keys (map gap os ++ [tail]))
            = map (fun p => bold (fst p) ++ py " " ++ highlight (strip (snd p)))
                  (combine keys (map gap os ++ [tail]))).
  { apply map_ext_in. intros [k v] Hin. cbn [fst snd]. unfold line.
    rewrite (Hstrip k); [reflexivity|]. now apply in_combine_l in Hin. }
  exists (gap o), (map gap os ++ [tail]). eexists.
  split; [exact Hvalues|]. split; [exact Hlen|]. split; [|split; [reflexivity|]].
  - rewrite (@format_keys_found text keys Hk Hne). unfold format_pairs.
    now rewrite Hvalues, format_values_interleave, Hlines.
  - split.
    + rewrite Hw, <- Hcat. apply in_order_scan.
    + exact (@in_order_lines (fun v => py " " ++ highlight (strip v))
               [newline; newline] keys _ Hlen).
Qed.

Lemma bold_keys_in_order_witness :
  exists out,
    format_content_locally (py "Item Name: Red Mug. Value: 25") = Ok out
    /\ in_order [bold (py "Item Name:"); bold (py "Value:")] out.
Proof.
  destruct (@bold_keys_in_order (py "Item Name: Red Mug. Value: 25")
              [py "Item Name:"; py "Value:"])
    as [g0 [vals [out [_ [_ [Hout [_ [_ Hord]]]]]]]].
  - vm_compute. reflexivity.
  - discriminate.
  - exists out. split; [exact Hout|exact Hord].
Defined.

(** ** A pass over the output of an earlier pass *)

Lemma re_sub_render (ic : bool) (r : regex) (text : str) :
  re_sub ic r highlight_template text = render (scan ic r [] text).
Proof.
  unfold re_sub, render. rewrite finditer_scan.
  now destruct (scan ic r [] text).
Qed.

Lemma search_unfold (ic : bool) (r : regex) (bef skipped aft : str) :
  search ic r bef skipped aft
  = match hit ic r bef aft with
    | Some st =>
        Some (Occ bef (rev skipped) (rev (consumed st)) (captured st)
                  (remaining st))
    | None =>
        match aft with
        | [] => None
        | x :: aft' => search ic r (x :: bef) (x :: skipped) aft'
        end
    end.
Proof. destruct aft; reflexivity. Qed.

Lemma search_skip (ic : bool) (r : regex) (z : str) :
  forall x bef skipped,
    misses ic r bef x z ->
    search ic r bef skipped (x ++ z)
    = search ic r (rev x ++ bef) (rev x ++ skipped) z.
Proof.
  induction x as [|c x IH]; intros bef skipped Hm; [reflexivity|].
  destruct Hm as [Hc Hm]. cbn [app search]. rewrite Hc.
  rewrite (IH _ _ Hm). cbn [rev]. now rewrite <- !app_assoc.
Qed.

Section Context_of_a_match.

Variable ic : bool.
Variable r : regex.

(** The pattern looks at the text before the position only to tell whether
    the last character is a word character. *)
Hypothesis hit_before :
  forall b b' aft,
    word_at (hd_error b) = word_at (hd_error b') ->
    hit ic r b aft = hit ic r b' aft.

Lemma search_shift :
  forall aft bef bef' sk sk',
    word_at (hd_error bef) = word_at (hd_error bef') ->
    match search ic r bef sk aft, search ic r bef' sk' aft with
    | Some o, Some o' =>
        (exists d, gap o = rev sk ++ d /\ gap o' = rev sk' ++ d)
        /\ whole o = whole o' /\ group1 o = group1 o' /\ rest o = rest o'
    | None, None => True
    | _, _ => False
    end.
Proof.
  induction aft as [|x xs IH]; intros bef bef' sk sk' Hw; cbn [search];
    rewrite (hit_before bef bef' _ Hw).
  - destruct (hit ic r bef' []) as [st|]; [|exact I].
    cbn [gap whole group1 rest]. repeat split. exists [].
    now rewrite !app_nil_r.
  - destruct (hit ic r bef' (x :: xs)) as [st|].
    + cbn [gap whole group1 rest]. repeat split. exists [].
      now rewrite !app_nil_r.
    + specialize (IH (x :: bef) (x :: bef') (x :: sk) (x :: sk') eq_refl).
      destruct (search ic r (x :: bef) (x :: sk) xs) as [o|],
               (search ic r (x :: bef') (x :: sk') xs) as [o'|];
        try exact IH.
      destruct IH as [[d [Hd Hd']] IH]. split; [|exact IH].
      exists (x :: d). cbn [rev] in Hd, Hd'.
      rewrite <- app_assoc in Hd, Hd'. now split.
Qed.

Lemma hd_rev_app (w b b' : str) :
  w <> [] -> hd_error (rev w ++ b) = hd_error (rev w ++ b').
Proof.
  intros Hne. destruct (rev w) as [|y ys] eqn:E; [|reflexivity].
  exfalso. apply Hne. apply rev_inj. now rewrite E.
Qed.

(** So the outcome of a pass over a text does not depend on what stood
    before the text, beyond that. *)
Lemma render_shift (bef aft : str) :
  forall bef',
    word_at (hd_error bef) = word_at (hd_error bef') ->
    render (scan ic r bef' aft) = render (scan ic r bef aft).
Proof.
  apply (@scan_ind ic r
           (fun bef aft res =>
              forall bef',
                word_at (hd_error bef) = word_at (hd_error bef') ->
                render (scan ic r bef' aft) = render res)).
  - clear bef aft. intros bef aft Hs bef' Hw.
    pose proof (search_shift aft bef bef' [] [] Hw) as H. rewrite Hs in H.
    rewrite scan_eq. destruct (search ic r bef' [] aft); [destruct H|].
    reflexivity.
  - clear bef aft. intros bef aft o os tail Hs _ IH bef' Hw.
    pose proof (search_shift aft bef bef' [] [] Hw) as H. rewrite Hs in H.
    rewrite scan_eq. destruct (search ic r bef' [] aft) as [o'|];
      [|destruct H].
    destruct H as [[d [Hd Hd']] [Hwh [Hg Hr]]]. cbn [rev app] in Hd, Hd'.
    destruct (search_spec _ _ _ _ _ Hs) as [_ [_ [_ [_ [Hn _]]]]].
    specialize (IH (rev (whole o') ++ left o')).
    rewrite <- Hwh, <- Hr in *.
    rewrite (surjective_pairing (scan ic r (rev (whole o) ++ left o') (rest o))).
    unfold render in *. cbn [fst snd map concat] in *.
    rewrite <- app_assoc. rewrite IH.
    + unfold expand, group_text. rewrite Hg, Hd, Hd'.
      now rewrite <- !app_assoc.
    + f_equal. now apply hd_rev_app.
Qed.

End Context_of_a_match.

Section Text_after_a_match.

Variable ic : bool.
Variable r : regex.
Variable z : str.

(** The text [z] that follows cannot be part of a match, nor change whether
    the text before it matches. *)
Hypothesis hit_extend :
  forall b post, hit ic r b (post ++ z) = option_map (extend z) (hit ic r b post).

Lemma search_extend :
  forall g bef sk o,
    search ic r bef sk g = Some o ->
    search ic r bef sk (g ++ z) = Some (with_rest z o).
Proof.
  induction g as [|x g IH]; intros bef sk o.
  - rewrite search_unfold, (search_unfold ic r bef sk ([] ++ z)), hit_extend.
    destruct (hit ic r bef []) as [st|]; [|discriminate].
    now intros [= <-].
  - rewrite search_unfold, (search_unfold ic r bef sk ((x :: g) ++ z)).
    rewrite hit_extend.
    destruct (hit ic r bef (x :: g)) as [st|]; [now intros [= <-]|].
    cbn [option_map app]. apply IH.
Qed.

Lemma search_misses :
  forall g bef sk, search ic r bef sk g = None -> misses ic r bef g z.
Proof.
  induction g as [|x g IH]; intros bef sk; [intros; exact I|].
  rewrite search_unfold. destruct (hit ic r bef (x :: g)) eqn:E;
    [discriminate|].
  intros Hs. split.
  - change (x :: g ++ z) with ((x :: g) ++ z). now rewrite hit_extend, E.
  - eapply IH, Hs.
Qed.

End Text_after_a_match.

Lemma boundary_before (b b' aft : str) :
  word_at (hd_error b) = word_at (hd_error b') ->
  boundary b aft = boundary b' aft.
Proof. unfold boundary. now intros ->. Qed.

Lemma keyword_hit_before (kw b b' aft : str) :
  word_at (hd_error b) = word_at (hd_error b') ->
  hit true (keyword_re kw) b aft = hit true (keyword_re kw) b' aft.
Proof.
  intros Hw. rewrite !hit_keyword_re. unfold keyword_at.
  rewrite (@boundary_before b b' aft Hw).
  destruct (boundary b' aft); [|reflexivity].
  destruct (lit_at true kw aft) as [[m r]|]; [|reflexivity].
  rewrite (@boundary_before (rev m ++ b) (rev m ++ b') r); [reflexivity|].
  destruct (rev m); [exact Hw|reflexivity].
Qed.

Lemma lit_at_extend (c0 : ascii) (z0 : str) :
  forall kw post,
    avoids kw c0 = true ->
    lit_at true kw (post ++ c0 :: z0)
    = option_map (fun p => (fst p, snd p ++ c0 :: z0)) (lit_at true kw post).
Proof.
  induction kw as [|c kw IH]; intros post Hav; [reflexivity|].
  unfold avoids in Hav. cbn [forallb] in Hav. apply andb_true_iff in Hav.
  destruct Hav as [Hc Hav]. apply negb_true_iff in Hc.
  destruct post as [|x xs]; cbn [app lit_at].
  - now rewrite Hc.
  - destruct (chr_eq true c x); [|reflexivity].
    rewrite (IH xs Hav).
    now destruct (lit_at true kw xs) as [[m r]|].
Qed.

Lemma boundary_extend (c0 : ascii) (z0 b post : str) :
  is_word c0 = false -> boundary b (post ++ c0 :: z0) = boundary b post.
Proof.
  intros Hc. unfold boundary. destruct post; cbn [app hd_error word_at];
    [now rewrite Hc|reflexivity].
Qed.

Lemma keyword_hit_extend (kw : str) (c0 : ascii) (z0 b post : str) :
  is_word c0 = false -> avoids kw c0 = true ->
  hit true (keyword_re kw) b (post ++ c0 :: z0)
  = option_map (extend (c0 :: z0)) (hit true (keyword_re kw) b post).
Proof.
  intros Hc Hav. rewrite !hit_keyword_re. unfold keyword_at.
  rewrite (@boundary_extend c0 z0 b post Hc).
  destruct (boundary b post); [|reflexivity].
  rewrite (@lit_at_extend c0 z0 kw post Hav).
  destruct (lit_at true kw post) as [[m r]|]; [|reflexivity].
  cbn [option_map fst snd].
  rewrite (@boundary_extend c0 z0 (rev m ++ b) r Hc).
  destruct (boundary (rev m ++ b) r); [|reflexivity].
  now destruct m.
Qed.

(** A match needs its first character to be, up to case, the first
    character of the keyword. *)
Lemma keyword_at_first (kw bef aft : str) (k0 c : ascii) :
  hd_error kw = Some k0 -> chr_eq true k0 c = false ->
  keyword_at kw bef (c :: aft) = None.
Proof.
  intros Hk Hc. destruct kw as [|k kw']; [discriminate|].
  injection Hk as ->. unfold keyword_at. cbn [lit_at]. rewrite Hc.
  now destruct (boundary bef (c :: aft)).
Qed.

(** And its second character to be the second one of the keyword. *)
Lemma keyword_at_second (kw bef aft : str) (k1 c c' : ascii) :
  nth_error kw 1 = Some k1 -> chr_eq true k1 c' = false ->
  keyword_at kw bef (c :: c' :: aft) = None.
Proof.
  intros Hk Hc. destruct kw as [|k kw']; [discriminate|].
  destruct kw' as [|k' kw'']; [discriminate|].
  injection Hk as ->. unfold keyword_at. cbn [lit_at]. rewrite Hc.
  destruct (boundary bef (c :: c' :: aft)); [|reflexivity].
  now destruct (chr_eq true k c).
Qed.

Lemma lit_at_folded_prefix :
  forall kw m aft,
    map lower m = map lower kw -> lit_at true kw (m ++ aft) = Some (m, aft).
Proof.
  induction kw as [|k kw IH]; intros [|c m] aft; cbn [map]; try discriminate.
  - reflexivity.
  - intros [= Hc Hm]. cbn [app lit_at]. unfold chr_eq.
    rewrite Hc, Ascii.eqb_refl. now rewrite (IH m aft Hm).
Qed.

Lemma found_at_none (g : bool) (o : option (str * str)) :
  o = None -> found g o = None.
Proof. now intros ->. Qed.

Lemma miss_first (kw bef aft : str) (k0 c : ascii) :
  hd_error kw = Some k0 -> chr_eq true k0 c = false ->
  hit true (keyword_re kw) bef (c :: aft) = None.
Proof.
  intros Hk Hc. rewrite hit_keyword_re. apply found_at_none.
  now apply keyword_at_first with k0.
Qed.

Lemma miss_second (kw bef aft : str) (k1 c c' : ascii) :
  nth_error kw 1 = Some k1 -> chr_eq true k1 c' = false ->
  hit true (keyword_re kw) bef (c :: c' :: aft) = None.
Proof.
  intros Hk Hc. rewrite hit_keyword_re. apply found_at_none.
  now apply keyword_at_second with k1.
Qed.

(** The keyword cannot match, as a whole word, the beginning of a longer
    word. *)
Lemma miss_inside (kw m : str) (c : ascii) (bef aft : str) :
  map lower m = map lower kw ->
  word_at (hd_error (rev m)) = true -> is_word c = true ->
  hit true (keyword_re kw) bef (m ++ c :: aft) = None.
Proof.
  intros Hm Hlast Hc. rewrite hit_keyword_re. apply found_at_none.
  unfold keyword_at. destruct (boundary bef (m ++ c :: aft)); [|reflexivity].
  rewrite (lit_at_folded_prefix kw m (c :: aft) Hm).
  unfold boundary. cbn [hd_error word_at]. rewrite Hc.
  destruct (rev m) as [|y ys]; [discriminate|].
  cbn [app hd_error word_at] in *. now rewrite Hlast.
Qed.

Ltac fold_case :=
  unfold chr_eq;
  try match goal with
      | H : lower ?c = _ |- context [lower ?c] => rewrite H
      end;
  vm_compute; reflexivity.

Ltac miss_here :=
  first
    [ apply (@miss_first (py "Bullet Poin") _ _ "B"%char);
      [reflexivity|fold_case]
    | apply (@miss_second (py "Bullet Poin") _ _ "u"%char);
      [reflexivity|fold_case] ].

(** The pattern of "Bullet Poin" misses at every position of a wrapped
    "Bullet Point": in the marks there is nothing like it, and in the
    occurrence it is followed by a word character. *)
Lemma bullet_poin_misses_wrapped (m bef z : str) :
  map lower m = map lower (py "Bullet Point") ->
  misses true (keyword_re (py "Bullet Poin")) bef (wrapped m) z.
Proof.
  intros H.
  let x := eval vm_compute in (map lower (py "Bullet Point")) in
  change (map lower (py "Bullet Point")) with x in H.
  do 12 (destruct m as [|? m]; [discriminate|];
         cbn [map] in H; injection H as ? H).
  destruct m; [clear H|discriminate].
  match goal with
  | |- misses _ _ _ (wrapped ?w) _ =>
      let x := eval vm_compute in (wrapped w) in
      change (wrapped w) with x
  end.
  cbn [misses app].
  repeat match goal with |- _ /\ _ => split end; try exact I; try miss_here.
  match goal with
  | |- hit _ _ _ (?c1 :: ?c2 :: ?c3 :: ?c4 :: ?c5 :: ?c6 :: ?c7 :: ?c8
                   :: ?c9 :: ?c10 :: ?c11 :: ?c12 :: ?aft) = None =>
      apply (@miss_inside (py "Bullet Poin")
               [c1; c2; c3; c4; c5; c6; c7; c8; c9; c10; c11] c12 _ aft)
  end.
  - cbn [map].
    repeat match goal with
           | H : lower ?c = _ |- context [lower ?c] => rewrite H
           end.
    reflexivity.
  - cbn [rev app hd_error word_at].
    match goal with |- is_word ?c = true => rewrite <- (is_word_lower c) end.
    match goal with
    | H : lower ?c = _ |- context [lower ?c] => rewrite H
    end. reflexivity.
  - match goal with |- is_word ?c = true => rewrite <- (is_word_lower c) end.
    match goal with
    | H : lower ?c = _ |- context [lower ?c] => rewrite H
    end. reflexivity.
Qed.

Lemma render_scan_eq (ic : bool) (r : regex) (bef aft : str) :
  render (scan ic r bef aft)
  = match search ic r bef [] aft with
    | None => aft
    | Some o =>
        (gap o ++ expand highlight_template o)
        ++ render (scan ic r (rev (whole o) ++ left o) (rest o))
    end.
Proof.
  rewrite scan_eq. destruct (search ic r bef [] aft) as [o|]; [|reflexivity].
  destruct (scan ic r (rev (whole o) ++ left o) (rest o)) as [os tail].
  unfold render. cbn [fst snd map concat]. now rewrite <- !app_assoc.
Qed.

Lemma wrapped_starts (m z : str) :
  wrapped m ++ z = "<"%char :: tl (wrapped m ++ z).
Proof. reflexivity. Qed.

Lemma wrapped_ends (m : str) :
  word_at (hd_error (rev (wrapped m))) = false.
Proof.
  unfold wrapped. rewrite !rev_app_distr. reflexivity.
Qed.

Lemma pass_through_wrapped (m z : str) :
  map lower m = map lower (py "Bullet Point") ->
  forall bef g,
    render (scan true (keyword_re (py "Bullet Poin")) bef (g ++ wrapped m ++ z))
    = render (scan true (keyword_re (py "Bullet Poin")) bef g)
      ++ wrapped m
      ++ render (scan true (keyword_re (py "Bullet Poin")) [] z).
Proof.
  intros Hm bef g.
  set (r := keyword_re (py "Bullet Poin")).
  assert (Hext : forall b post,
             hit true r b (post ++ wrapped m ++ z)
             = option_map (extend (wrapped m ++ z)) (hit true r b post)).
  { intros b post. rewrite wrapped_starts.
    apply keyword_hit_extend; reflexivity. }
  assert (Hbef : forall b b' aft,
             word_at (hd_error b) = word_at (hd_error b') ->
             hit true r b aft = hit true r b' aft).
  { intros b b' aft. apply keyword_hit_before. }
  apply (@scan_ind true r
           (fun bef g res =>
              render (scan true r bef (g ++ wrapped m ++ z))
              = render res ++ wrapped m ++ render (scan true r [] z))).
  - clear bef g. intros bef g Hs.
    rewrite render_scan_eq.
    rewrite (@search_skip true r (wrapped m ++ z) g bef [])
      by (eapply search_misses; eauto).
    rewrite (@search_skip true r z (wrapped m) _ _)
      by (now apply bullet_poin_misses_wrapped).
    rewrite (render_scan_eq true r [] z).
    assert (Hw : word_at (hd_error (rev (wrapped m) ++ rev g ++ bef))
                 = word_at (hd_error (@nil ascii))).
    { rewrite (@hd_rev_app (wrapped m) (rev g ++ bef) []).
      - rewrite app_nil_r. apply wrapped_ends.
      - discriminate. }
    pose proof (@search_shift true r Hbef z _ []
                  (rev (wrapped m) ++ rev g ++ []) [] Hw) as H.
    destruct (search true r (rev (wrapped m) ++ rev g ++ bef)
                (rev (wrapped m) ++ rev g ++ []) z) as [o1|].
    + destruct (search true r [] [] z) as [o|] eqn:Eo.
      * destruct H as [[d [Hd Hd']] [Hwh [Hg Hr]]].
        destruct (search_spec _ _ _ _ _ Eo) as [_ [_ [_ [_ [Hn _]]]]].
        rewrite Hr.
        rewrite (@render_shift true r Hbef (rev (whole o) ++ left o) (rest o)
                   (rev (whole o1) ++ left o1))
          by (rewrite Hwh; f_equal; apply hd_rev_app; exact Hn).
        change (render ([], g)) with g.
        assert (He : expand highlight_template o1 = expand highlight_template o)
          by (unfold expand, group_text; rewrite Hg; reflexivity).
        rewrite He, Hd, Hd'.
        rewrite app_nil_r, !rev_app_distr, !rev_involutive. cbn [rev app].
        rewrite <- !app_assoc. reflexivity.
      * destruct H.
    + destruct (search true r [] [] z) as [o|] eqn:Eo; [destruct H|].
      change (render ([], g)) with g. reflexivity.
  - clear bef g. intros bef g o os tail Hs Hsc IH.
    rewrite render_scan_eq.
    rewrite (@search_extend true r (wrapped m ++ z) Hext g bef [] o Hs).
    cbn [with_rest gap whole left rest]. rewrite IH.
    unfold render at 3. cbn [fst snd map concat].
    assert (He : expand highlight_template (with_rest (wrapped m ++ z) o)
                 = expand highlight_template o) by reflexivity.
    rewrite He. unfold render. cbn [fst snd].
    rewrite <- !app_assoc. reflexivity.
Qed.

(** What a pass makes of a text, match by match. *)
Lemma highlight_pass_wrapped (kw text : str) :
  word_at (hd_error kw) = true -> word_at (hd_error (rev kw)) = true ->
  highlight_pass text kw
  = concat (map (fun o => gap o ++ wrapped (whole o))
              (fst (finditer true (keyword_re kw) text)))
    ++ snd (finditer true (keyword_re kw) text).
Proof.
  intros Hfirst Hlast. unfold highlight_pass. rewrite re_sub_render.
  rewrite finditer_scan. unfold render. f_equal.
  pose proof (@keyword_scan_shape kw text Hfirst Hlast [] text eq_refl) as H.
  induction H as [|o os Ho _ IH]; cbn [map concat]; [reflexivity|].
  rewrite IH. destruct Ho as [_ [Hg _]].
  rewrite (expand_highlight o Hg). reflexivity.
Qed.

Lemma passes_compose (tail : str) :
  forall os,
    Forall (fun o => map lower (whole o) = map lower (py "Bullet Point")) os ->
    highlight_pass
      (concat (map (fun o => gap o ++ wrapped (whole o)) os) ++ tail)
      (py "Bullet Poin")
    = concat (map (fun o => highlight_pass (gap o) (py "Bullet Poin")
                            ++ wrapped (whole o)) os)
      ++ highlight_pass tail (py "Bullet Poin").
Proof.
  unfold highlight_pass. induction 1 as [|o os Ho _ IH]; [reflexivity|].
  cbn [map concat]. rewrite !re_sub_render in *.
  rewrite <- !app_assoc.
  rewrite (@pass_through_wrapped (whole o) _ Ho [] (gap o)).
  rewrite IH. rewrite <- ?app_assoc. reflexivity.
Qed.

(** C6: the highlighting passes run one after another in the order of the
    keyword list, each on the output of the one before.  Whatever the text,
    the pass for "Bullet Poin" leaves every occurrence that the pass for
    "Bullet Point" has wrapped as it is, marks included, and works only on
    the text between these occurrences, piece by piece: it never matches
    in the inserted marks nor in a wrapped occurrence, and no wrapped
    "Bullet Point" is wrapped again. *)
Theorem wrapped_bullet_point_kept :
  (forall text : str,
     highlight text
     = highlight_pass
         (highlight_pass
            (highlight_pass
               (highlight_pass (highlight_pass text (py "Unit")) (py "Value"))
               (py "Bullet Point"))
            (py "Bullet Poin"))
         (py "Item Name"))
  /\ (forall text : str,
        let os := fst (finditer true (keyword_re (py "Bullet Point")) text) in
        let tail := snd (finditer true (keyword_re (py "Bullet Point")) text) in
        highlight_pass text (py "Bullet Point")
        = concat (map (fun o => gap o ++ wrapped (whole o)) os) ++ tail
        /\ highlight_pass (highlight_pass text (py "Bullet Point"))
             (py "Bullet Poin")
           = concat (map (fun o => highlight_pass (gap o) (py "Bullet Poin")
                                   ++ wrapped (whole o)) os)
             ++ highlight_pass tail (py "Bullet Poin"))
  /\ highlight (py "Bullet Point, bullet poin, BULLET POINT")
     = wrapped (py "Bullet Point") ++ py ", "
       ++ wrapped (py "bullet poin") ++ py ", "
       ++ wrapped (py "BULLET POINT").
Proof.
  split; [reflexivity|]. split; [|vm_compute; reflexivity].
  intros text os tail.
  assert (Hpass : highlight_pass text (py "Bullet Point")
                  = concat (map (fun o => gap o ++ wrapped (whole o)) os)
                    ++ tail).
  { apply highlight_pass_wrapped; reflexivity. }
  split; [exact Hpass|]. rewrite Hpass. apply passes_compose.
  pose proof (@keyword_scan_shape (py "Bullet Point") text
                eq_refl eq_refl [] text eq_refl) as H.
  rewrite <- finditer_scan in H. fold os in H.
  clear -H. induction H as [|o os' Ho _ IH]; constructor; [|exact IH].
  exact (proj1 Ho).
Qed.

(** * Further properties *)

(** ** What highlighting does to a text *)

Lemma emphasized_trans (a b c : str) :
  emphasized a b -> emphasized b c -> emphasized a c.
Proof.
  intros Hab Hbc. induction Hbc as [|x m y kw Hin Hm _ IH]; [exact Hab|].
  now apply emphasized_wrap with kw.
Qed.

Lemma emphasized_after (p t o : str) :
  emphasized t o -> emphasized (p ++ t) (p ++ o).
Proof.
  intros H. induction H as [|x m y kw Hin Hm _ IH]; [constructor|].
  rewrite app_assoc. apply emphasized_wrap with kw; [exact Hin|exact Hm|].
  now rewrite <- app_assoc.
Qed.

Lemma emphasized_matches (kw : str) (os : list occurrence) (tail : str) :
  In kw keywords_to_highlight ->
  Forall (fun o => map lower (whole o) = map lower kw) os ->
  emphasized (concat (map (fun o => gap o ++ whole o) os) ++ tail)
             (concat (map (fun o => gap o ++ wrapped (whole o)) os) ++ tail).
Proof.
  intros Hin H. induction H as [|o os Ho _ IH]; [constructor|].
  cbn [map concat]. rewrite <- !app_assoc.
  apply emphasized_wrap with kw; [exact Hin|exact Ho|].
  rewrite !(app_assoc (gap o) (whole o)). apply emphasized_after. exact IH.
Qed.

Lemma keyword_matches_folded (kw text : str) :
  In kw keywords_to_highlight ->
  Forall (fun o => map lower (whole o) = map lower kw)
         (fst (finditer true (keyword_re kw) text)).
Proof.
  intros Hin. destruct (@keywords_word_ends kw Hin) as [Hfirst Hlast].
  pose proof (@keyword_scan_shape kw text Hfirst Hlast [] text eq_refl) as H.
  rewrite <- finditer_scan in H.
  induction H as [|o os Ho _ IH]; constructor; [exact (proj1 Ho)|exact IH].
Qed.

Lemma emphasized_pass (kw text : str) :
  In kw keywords_to_highlight -> emphasized text (highlight_pass text kw).
Proof.
  intros Hin. destruct (@keywords_word_ends kw Hin) as [Hfirst Hlast].
  rewrite (@highlight_pass_wrapped kw text Hfirst Hlast).
  pose proof (scan_concat true (keyword_re kw) [] text) as Hcat.
  rewrite <- finditer_scan in Hcat. rewrite <- Hcat at 1.
  apply (@emphasized_matches kw); [exact Hin|]. apply keyword_matches_folded.
  exact Hin.
Qed.

Lemma emphasized_passes (kws : list str) :
  (forall kw, In kw kws -> In kw keywords_to_highlight) ->
  forall text, emphasized text (fold_left highlight_pass kws text).
Proof.
  induction kws as [|kw kws IH]; intros Hsub text; [constructor|].
  cbn [fold_left]. apply emphasized_trans with (highlight_pass text kw).
  - apply emphasized_pass. apply Hsub. now left.
  - apply IH. intros k Hk. apply Hsub. now right.
Qed.

(** X1: highlighting changes nothing of a text but to put occurrences of
    keywords between the span marks.  The output of the loop of passes, in
    the formatter and on the raw text alike, is the text in which
    occurrences of keywords, in any case, have been wrapped one after
    another; every character of the text is kept, in place. *)
Theorem highlight_only_wraps (text : str) :
  emphasized text (highlight text)
  /\ emphasized text (highlighted_raw_text text).
Proof.
  split; apply (@emphasized_passes keywords_to_highlight); trivial.
Qed.

Lemma emphasized_length (t o : str) : emphasized t o -> length t <= length o.
Proof.
  intros H. induction H as [|x m y kw _ _ _ IH]; [lia|].
  unfold wrapped. rewrite !length_app in *. lia.
Qed.

Lemma wrapped_matches_length (os : list occurrence) (tail : str) :
  length (concat (map (fun o => gap o ++ wrapped (whole o)) os) ++ tail)
  = length (concat (map (fun o => gap o ++ whole o) os) ++ tail)
    + (length span_open + length span_close) * length os.
Proof.
  rewrite !length_app.
  induction os as [|o os IH]; [cbn [map concat length]; lia|].
  cbn [map concat length]. unfold wrapped in *. rewrite !length_app in *.
  rewrite Nat.mul_succ_r. lia.
Qed.

(** A pass makes the text longer by the two marks for every match. *)
Lemma highlight_pass_length (kw text : str) :
  In kw keywords_to_highlight ->
  length (highlight_pass text kw)
  = length text
    + (length span_open + length span_close)
      * length (fst (finditer true (keyword_re kw) text)).
Proof.
  intros Hin. destruct (@keywords_word_ends kw Hin) as [Hfirst Hlast].
  rewrite (@highlight_pass_wrapped kw text Hfirst Hlast).
  rewrite wrapped_matches_length.
  pose proof (scan_concat true (keyword_re kw) [] text) as Hcat.
  rewrite <- finditer_scan in Hcat. now rewrite Hcat.
Qed.

Lemma highlight_pass_no_match (kw text : str) :
  fst (finditer true (keyword_re kw) text) = [] ->
  highlight_pass text kw = text.
Proof.
  intros H. unfold highlight_pass. rewrite re_sub_render. unfold render.
  pose proof (scan_concat true (keyword_re kw) [] text) as Hcat.
  rewrite <- finditer_scan in *. rewrite H in *. exact Hcat.
Qed.

(** An occurrence of a keyword as a whole word is a hit of its pattern. *)
Lemma occurrence_hit (kw pre m post : str) :
  In kw keywords_to_highlight ->
  map lower m = map lower kw ->
  word_at (hd_error (rev pre)) = false ->
  word_at (hd_error post) = false ->
  hit true (keyword_re kw) (rev pre) (m ++ post) <> None.
Proof.
  intros Hin Hm Hpre Hpost.
  destruct (@keywords_word_ends kw Hin) as [Hfirst Hlast].
  rewrite hit_keyword_re. unfold keyword_at.
  assert (Hm1 : word_at (hd_error m) = true)
    by (now rewrite (word_at_folded _ _ Hm)).
  assert (Hm2 : word_at (hd_error (rev m)) = true).
  { rewrite (@word_at_folded (rev m) (rev kw)); [exact Hlast|].
    now rewrite !map_rev, Hm. }
  assert (Hb1 : boundary (rev pre) (m ++ post) = true).
  { unfold boundary. rewrite Hpre. destruct m as [|c m']; [discriminate|].
    cbn [app hd_error] in *. now rewrite Hm1. }
  rewrite Hb1, (lit_at_folded_prefix kw m post Hm).
  assert (Hb2 : boundary (rev m ++ rev pre) post = true).
  { unfold boundary. rewrite Hpost.
    destruct (rev m) as [|y ys]; [discriminate|].
    cbn [app hd_error] in *. now rewrite Hm2. }
  rewrite Hb2. destruct m as [|c m']; [discriminate|]. discriminate.
Qed.

(** The scan for a keyword finds nothing exactly when the keyword does not
    occur in the text as a whole word. *)
Lemma no_match_iff (kw text : str) :
  In kw keywords_to_highlight ->
  fst (finditer true (keyword_re kw) text) = [] <-> ~ occurs kw text.
Proof.
  intros Hin. destruct (@keywords_word_ends kw Hin) as [Hfirst Hlast].
  rewrite finditer_scan, scan_eq. split.
  - destruct (search true (keyword_re kw) [] [] text) as [o|] eqn:Es.
    + destruct (scan true (keyword_re kw) (rev (whole o) ++ left o) (rest o)).
      discriminate.
    + intros _ [pre [m [post [Ht [Hm [Hpre Hpost]]]]]].
      apply (@occurrence_hit kw pre m post Hin Hm Hpre Hpost).
      pose proof (@search_none true (keyword_re kw) text [] [] Es pre
                    (m ++ post) Ht) as H.
      now rewrite app_nil_r in H.
  - intros Hno.
    destruct (search true (keyword_re kw) [] [] text) as [o|] eqn:Es;
      [|reflexivity].
    exfalso. apply Hno.
    destruct (search_spec _ _ _ _ _ Es) as [g [Hg [Ha [Hl [Hn [Hh _]]]]]].
    destruct (keyword_hit_shape _ _ _ Hfirst Hlast Hh) as [H1 [_ [H3 H4]]].
    cbn [consumed remaining] in *. rewrite rev_involutive in H1.
    exists g, (whole o), (rest o). repeat split; [exact Ha|exact H1| |exact H4].
    rewrite Hl, app_nil_r in H3. exact H3.
Qed.

Lemma passes_unchanged (kws : list str) (text : str) :
  (forall kw, In kw kws -> fst (finditer true (keyword_re kw) text) = []) ->
  fold_left highlight_pass kws text = text.
Proof.
  induction kws as [|kw kws IH]; intros H; [reflexivity|].
  cbn [fold_left]. rewrite (@highlight_pass_no_match kw text)
    by (apply H; now left).
  apply IH. intros k Hk. apply H. now right.
Qed.

Lemma passes_changed (kws : list str) (text : str) :
  (forall kw, In kw kws -> In kw keywords_to_highlight) ->
  fold_left highlight_pass kws text = text ->
  forall kw, In kw kws -> fst (finditer true (keyword_re kw) text) = [].
Proof.
  induction kws as [|k kws IH]; intros Hsub Heq kw Hkw; [destruct Hkw|].
  cbn [fold_left] in Heq.
  assert (Hk : In k keywords_to_highlight) by (apply Hsub; now left).
  assert (Hsub' : forall kw, In kw kws -> In kw keywords_to_highlight)
    by (intros kw' Hkw'; apply Hsub; now right).
  pose proof (emphasized_length
                (@emphasized_passes kws Hsub' (highlight_pass text k))) as Hle.
  rewrite Heq, (highlight_pass_length text Hk) in Hle.
  assert (Hnone : fst (finditer true (keyword_re k) text) = []).
  { destruct (fst (finditer true (keyword_re k) text)); [reflexivity|].
    exfalso. cbn [length] in Hle.
    assert (0 < length span_open + length span_close)
      by (vm_compute; lia).
    nia. }
  destruct Hkw as [<-|Hkw]; [exact Hnone|].
  apply IH; [exact Hsub'| |exact Hkw].
  now rewrite (highlight_pass_no_match k text Hnone) in Heq.
Qed.

Lemma passes_unchanged_iff (text : str) :
  fold_left highlight_pass keywords_to_highlight text = text
  <-> forall kw, In kw keywords_to_highlight -> ~ occurs kw text.
Proof.
  split.
  - intros Heq kw Hin. apply (no_match_iff text Hin).
    apply (@passes_changed keywords_to_highlight text); trivial.
  - intros H. apply passes_unchanged. intros kw Hin.
    apply (no_match_iff text Hin). now apply H.
Qed.

(** X2: highlighting returns the text as it is exactly when none of the
    five keywords occurs in it as a whole word, in any case; this holds of
    the loop in the formatter and of the loop on the raw text. *)
Theorem highlight_unchanged_iff (text : str) :
  (highlight text = text
   <-> forall kw, In kw keywords_to_highlight -> ~ occurs kw text)
  /\ (highlighted_raw_text text = text
      <-> forall kw, In kw keywords_to_highlight -> ~ occurs kw text).
Proof. split; apply passes_unchanged_iff. Qed.

(** ** What the formatter returns *)

Lemma split_concat (os : list occurrence) (tail : str) :
  Forall (fun o => group1 o = Some (whole o)) os ->
  concat (concat (map (fun o => [gap o; group_text o]) os) ++ [tail])
  = concat (map (fun o => gap o ++ whole o) os) ++ tail.
Proof.
  intros H. induction H as [|o os Ho _ IH].
  - simpl. apply app_nil_r.
  - simpl in *. rewrite IH. unfold group_text. rewrite Ho.
    now rewrite <- !app_assoc.
Qed.

(** X3: the split by the keys found loses nothing: the elements of the
    split sequence, put together in order, are the text. *)
Theorem split_by_keys_loses_nothing (text : str) :
  concat (re_split false (split_re (re_findall false key_re text)) text) = text.
Proof.
  unfold re_split. rewrite split_finditer_eq.
  destruct (@key_scan_shape text [] text eq_refl) as [Hocc _].
  pose proof (scan_concat false key_re [] text) as Hcat.
  rewrite <- finditer_scan in Hocc, Hcat.
  destruct (finditer false key_re text) as [os tail]. cbn [fst snd] in *.
  cbn [has_group split_re]. rewrite split_concat; [exact Hcat|].
  eapply Forall_impl; [|exact Hocc]. intros o Ho. apply Ho.
Qed.

Lemma lstrip_head (s : str) :
  match lstrip s with c :: _ => is_space c = false | [] => True end.
Proof.
  induction s as [|c s IH]; cbn [lstrip]; [exact I|].
  destruct (is_space c) eqn:E; [exact IH|exact E].
Qed.

Lemma lstrip_nil (s : str) : lstrip s = [] -> forallb is_space s = true.
Proof.
  induction s as [|c s IH]; cbn [lstrip forallb]; [reflexivity|].
  destruct (is_space c); [exact IH|discriminate].
Qed.

(** Only a text of whitespace is trimmed to nothing. *)
Lemma strip_nil (s : str) : strip s = [] -> forallb is_space s = true.
Proof.
  unfold strip, rstrip. intros H. apply lstrip_nil.
  apply (f_equal (@rev ascii)) in H. rewrite rev_involutive in H.
  cbn [rev] in H. apply lstrip_nil in H.
  pose proof (lstrip_head s) as Hh.
  destruct (lstrip s) as [|c s']; [reflexivity|].
  rewrite forallb_forall in H. rewrite (H c) in Hh; [discriminate|].
  apply in_rev. rewrite rev_involutive. now left.
Qed.

Lemma join_nonempty (sep x : str) (l : list str) :
  x <> [] -> join sep (x :: l) <> [].
Proof.
  intros Hx. destruct l as [|y l]; cbn [join]; [exact Hx|].
  destruct x; [congruence|discriminate].
Qed.

Lemma forallb_concat_pieces (os : list occurrence) (tail : str) :
  Forall (fun o => forallb is_space (whole o) = true) os ->
  forallb (fun s => length (strip s) =? 0) (map gap os ++ [tail]) = true ->
  forallb is_space (concat (map (fun o => gap o ++ whole o) os) ++ tail) = true.
Proof.
  intros H. induction H as [|o os Ho _ IH]; cbn [map concat app forallb].
  - rewrite andb_true_r. intros E. apply Nat.eqb_eq in E.
    apply strip_nil. now destruct (strip tail).
  - intros E. apply andb_true_iff in E. destruct E as [E1 E2].
    rewrite <- (app_assoc (gap o ++ whole o)).
    rewrite (forallb_app is_space (gap o ++ whole o)), (IH E2).
    rewrite forallb_app, Ho.
    apply Nat.eqb_eq in E1. rewrite strip_nil; [reflexivity|].
    now destruct (strip (gap o)).
Qed.

Lemma highlight_nonempty (s : str) : s <> [] -> highlight s <> [].
Proof.
  intros Hs H.
  assert (Hsub : forall kw, In kw keywords_to_highlight ->
                            In kw keywords_to_highlight) by trivial.
  pose proof (emphasized_length
                (@emphasized_passes keywords_to_highlight Hsub s)) as Hle.
  fold (highlight s) in Hle. rewrite H in Hle.
  destruct s; [congruence|]. cbn [length] in Hle. lia.
Qed.

(** A text with a visible character in it has a visible bullet line. *)
Lemma format_sentences_nonempty (text : str) :
  forallb is_space text = false -> format_sentences text <> [].
Proof.
  intros Hvis. unfold format_sentences. apply highlight_nonempty.
  pose proof (@sentence_scan_shape [] text) as Hshape.
  pose proof (scan_concat false sentence_re [] text) as Hcat.
  unfold re_split. rewrite finditer_scan.
  destruct (scan false sentence_re [] text) as [os tail]. cbn [fst snd] in *.
  cbn [has_group sentence_re orb].
  assert (Hsent : concat (map (fun o => [gap o]) os) ++ [tail]
                  = map gap os ++ [tail]).
  { f_equal. clear. induction os as [|o os IH]; [reflexivity|].
    cbn [map concat app]. now rewrite IH. }
  rewrite Hsent.
  destruct (filter (fun s => negb (length (strip s) =? 0)) (map gap os ++ [tail]))
    as [|s kept] eqn:Ef.
  - exfalso.
    assert (Hall : forallb (fun s => length (strip s) =? 0)
                           (map gap os ++ [tail]) = true).
    { apply forallb_forall. intros s Hs.
      destruct (length (strip s) =? 0) eqn:E; [reflexivity|].
      assert (Hin : In s (filter (fun s => negb (length (strip s) =? 0))
                                 (map gap os ++ [tail])))
        by (apply filter_In; split; [exact Hs|now rewrite E]).
      rewrite Ef in Hin. destruct Hin. }
    assert (Hsp : Forall (fun o => forallb is_space (whole o) = true) os).
    { eapply Forall_impl; [|apply Hshape; discriminate].
      intros o Ho. apply Ho. }
    pose proof (forallb_concat_pieces tail Hsp Hall) as H.
    rewrite Hcat in H. congruence.
  - cbn [map]. apply join_nonempty. discriminate.
Qed.

(** When keys are found the first line is there, and it begins with the
    bold mark. *)
Lemma format_pairs_nonempty (text : str) (keys : list str) :
  re_findall false key_re text = keys -> keys <> [] ->
  exists out, format_pairs keys text = Ok out /\ out <> [].
Proof.
  intros Hk Hne. unfold format_pairs.
  pose proof (split_re_length keys text) as Hlen.
  rewrite (@format_values_spec _ _ Hlen). eexists. split; [reflexivity|].
  assert (Hn : fst (finditer false (split_re keys) text) <> []).
  { rewrite <- Hk, split_finditer_eq. rewrite key_findall_whole in Hk.
    intros E. rewrite E in Hk. cbn [map] in Hk. congruence. }
  destruct (fst (finditer false (split_re keys) text)) as [|o os];
    [congruence|].
  cbn [length seq map]. apply join_nonempty. unfold line. discriminate.
Qed.

(** X4: a text with a character in it that is not whitespace formats to
    a string that is not empty, whichever branch is taken. *)
Theorem visible_text_formats_to_something (text : str) :
  forallb is_space text = false ->
  exists out, format_content_locally text = Ok out /\ out <> [].
Proof.
  intros Hvis. unfold format_content_locally.
  destruct (re_findall false key_re text) as [|k keys] eqn:Hk; cbn [py_not].
  - eexists. split; [reflexivity|]. now apply format_sentences_nonempty.
  - apply format_pairs_nonempty; [exact Hk|discriminate].
Qed.

Lemma visible_text_formats_to_something_witness :
  exists out, format_content_locally (py " ok ") = Ok out /\ out <> [].
Proof.
  apply (@visible_text_formats_to_something (py " ok ")).
  vm_compute. reflexivity.
Defined.

(** ** Highlighting line by line *)

Section Pass_through.

Variable kw : str.

(** A stretch of text [c0 :: x0] that no match of the keyword can reach
    into, start in, or lean on. *)
Variable c0 : ascii.
Variable x0 : str.

Hypothesis head_not_word : is_word c0 = false.
Hypothesis head_avoided : avoids kw c0 = true.
Hypothesis no_hit_inside :
  forall bef z, misses true (keyword_re kw) bef (c0 :: x0) z.
Hypothesis last_not_word : word_at (hd_error (rev (c0 :: x0))) = false.

(** The pass goes through such a stretch as if the text before it and the
    text after it were two texts. *)
Lemma pass_through (z : str) :
  forall bef g,
    render (scan true (keyword_re kw) bef (g ++ (c0 :: x0) ++ z))
    = render (scan true (keyword_re kw) bef g)
      ++ (c0 :: x0)
      ++ render (scan true (keyword_re kw) [] z).
Proof.
  intros bef g.
  set (r := keyword_re kw). set (x := c0 :: x0).
  assert (Hext : forall b post,
             hit true r b (post ++ x ++ z)
             = option_map (extend (x ++ z)) (hit true r b post)).
  { intros b post. apply keyword_hit_extend; assumption. }
  assert (Hbef : forall b b' aft,
             word_at (hd_error b) = word_at (hd_error b') ->
             hit true r b aft = hit true r b' aft).
  { intros b b' aft. apply keyword_hit_before. }
  apply (@scan_ind true r
           (fun bef g res =>
              render (scan true r bef (g ++ x ++ z))
              = render res ++ x ++ render (scan true r [] z))).
  - clear bef g. intros bef g Hs.
    rewrite render_scan_eq.
    rewrite (@search_skip true r (x ++ z) g bef [])
      by (eapply search_misses; eauto).
    rewrite (@search_skip true r z x _ _) by apply no_hit_inside.
    rewrite (render_scan_eq true r [] z).
    assert (Hw : word_at (hd_error (rev x ++ rev g ++ bef))
                 = word_at (hd_error (@nil ascii))).
    { rewrite (@hd_rev_app x (rev g ++ bef) []).
      - rewrite app_nil_r. exact last_not_word.
      - discriminate. }
    pose proof (@search_shift true r Hbef z _ []
                  (rev x ++ rev g ++ []) [] Hw) as H.
    destruct (search true r (rev x ++ rev g ++ bef)
                (rev x ++ rev g ++ []) z) as [o1|].
    + destruct (search true r [] [] z) as [o|] eqn:Eo; [|destruct H].
      destruct H as [[d [Hd Hd']] [Hwh [Hg Hr]]].
      destruct (search_spec _ _ _ _ _ Eo) as [_ [_ [_ [_ [Hn _]]]]].
      rewrite Hr.
      rewrite (@render_shift true r Hbef (rev (whole o) ++ left o) (rest o)
                 (rev (whole o1) ++ left o1))
        by (rewrite Hwh; f_equal; apply hd_rev_app; exact Hn).
      change (render ([], g)) with g.
      assert (He : expand highlight_template o1 = expand highlight_template o)
        by (unfold expand, group_text; rewrite Hg; reflexivity).
      rewrite He, Hd, Hd'.
      rewrite app_nil_r, !rev_app_distr, !rev_involutive. cbn [rev app].
      rewrite <- !app_assoc. reflexivity.
    + destruct (search true r [] [] z) as [o|] eqn:Eo; [destruct H|].
      change (render ([], g)) with g. reflexivity.
  - clear bef g. intros bef g o os tail Hs Hsc IH.
    rewrite render_scan_eq.
    rewrite (@search_extend true r (x ++ z) Hext g bef [] o Hs).
    cbn [with_rest gap whole left rest]. rewrite IH.
    unfold render at 3. cbn [fst snd map concat].
    assert (He : expand highlight_template (with_rest (x ++ z) o)
                 = expand highlight_template o) by reflexivity.
    rewrite He. unfold render. cbn [fst snd].
    rewrite <- !app_assoc. reflexivity.
Qed.

End Pass_through.

Lemma miss_short (kw bef post : str) (c0 : ascii) (z0 : str) :
  is_word c0 = false -> avoids kw c0 = true ->
  lit_at true kw post = None ->
  hit true (keyword_re kw) bef (post ++ c0 :: z0) = None.
Proof.
  intros Hc Hav Hl. rewrite keyword_hit_extend by assumption.
  rewrite hit_keyword_re. unfold keyword_at. rewrite Hl.
  now destruct (boundary bef post).
Qed.

Lemma highlight_pass_nil (kw : str) : highlight_pass [] kw = [].
Proof.
  unfold highlight_pass. rewrite re_sub_render, render_scan_eq.
  destruct (search true (keyword_re kw) [] [] []) as [o|] eqn:E;
    [|reflexivity].
  apply search_shorter in E. cbn [length] in E. lia.
Qed.

Ltac miss_at k :=
  first
    [ eapply miss_first with (kw := k);
      [reflexivity|vm_compute; reflexivity]
    | eapply miss_second with (kw := k);
      [reflexivity|vm_compute; reflexivity]
    | match goal with
      | |- hit _ _ _ (?a :: ?b :: ?c :: ?d :: ?e :: ?t) = None =>
          apply (@miss_short k _ [a; b; c; d] e t);
          vm_compute; reflexivity
      end ].

(** No keyword matches in the newline, nor across it. *)
Lemma pass_through_newline (kw g z : str) :
  In kw keywords_to_highlight ->
  highlight_pass (g ++ newline :: z) kw
  = highlight_pass g kw ++ newline :: highlight_pass z kw.
Proof.
  intros Hin. unfold highlight_pass. rewrite !re_sub_render.
  change (g ++ newline :: z) with (g ++ (newline :: []) ++ z).
  repeat (destruct Hin as [<-|Hin];
          [apply pass_through;
           [reflexivity|reflexivity|
            intros bef z'; cbn [misses app]; split; [|exact I];
            match goal with
            | |- hit _ (keyword_re ?k) _ _ = None => miss_at k
            end|
            reflexivity]|]).
  destruct Hin.
Qed.

(** No keyword matches in the bullet glyph, nor across it. *)
Lemma pass_through_bullet (kw z : str) :
  In kw keywords_to_highlight ->
  highlight_pass (py "&bull; " ++ z) kw = py "&bull; " ++ highlight_pass z kw.
Proof.
  intros Hin. unfold highlight_pass. rewrite !re_sub_render.
  change (py "&bull; " ++ z) with ([] ++ py "&bull; " ++ z).
  change (py "&bull; " ++ render (scan true (keyword_re kw) [] z))
    with (render (@nil occurrence, @nil ascii) ++ py "&bull; "
          ++ render (scan true (keyword_re kw) [] z)).
  assert (Hnil : forall k, render (scan true (keyword_re k) [] [])
                           = render (@nil occurrence, @nil ascii)).
  { intros k. pose proof (highlight_pass_nil k) as H.
    unfold highlight_pass in H. now rewrite re_sub_render in H. }
  rewrite <- (Hnil kw).
  let x := eval vm_compute in (py "&bull; ") in change (py "&bull; ") with x.
  repeat (destruct Hin as [<-|Hin];
          [apply pass_through;
           [reflexivity|reflexivity|
            intros bef z'; cbn [misses app];
            repeat match goal with |- _ /\ _ => split end; try exact I;
            match goal with
            | |- hit _ (keyword_re ?k) _ _ = None => miss_at k
            end|
            reflexivity]|]).
  destruct Hin.
Qed.

Lemma pass_over_join (kw : str) (l : list str) :
  In kw keywords_to_highlight ->
  highlight_pass (join [newline] l) kw
  = join [newline] (map (fun s => highlight_pass s kw) l).
Proof.
  intros Hin. induction l as [|p l IH]; [apply highlight_pass_nil|].
  destruct l as [|q l]; [reflexivity|].
  change (join [newline] (p :: q :: l))
    with (p ++ newline :: join [newline] (q :: l)).
  rewrite (pass_through_newline p (join [newline] (q :: l)) Hin), IH.
  reflexivity.
Qed.

Lemma passes_over_bullets (kws : list str) :
  (forall kw, In kw kws -> In kw keywords_to_highlight) ->
  forall (f : str -> str) (l : list str),
    fold_left highlight_pass kws
      (join [newline] (map (fun s => py "&bull; " ++ f s) l))
    = join [newline]
        (map (fun s => py "&bull; " ++ fold_left highlight_pass kws (f s)) l).
Proof.
  induction kws as [|kw kws IH]; intros Hsub f l; [reflexivity|].
  cbn [fold_left].
  assert (Hin : In kw keywords_to_highlight) by (apply Hsub; now left).
  rewrite (pass_over_join _ Hin), map_map.
  rewrite (map_ext _ (fun s => py "&bull; " ++ highlight_pass (f s) kw))
    by (intros s; apply pass_through_bullet; exact Hin).
  apply (IH (fun k Hk => Hsub k (or_intror Hk))
            (fun s => highlight_pass (f s) kw)).
Qed.

(** X5: highlighting the joined bullet list once gives what highlighting
    each trimmed sentence by itself gives: no keyword matches across a line
    break, nor into the bullet glyph. *)
Theorem block_highlight_is_per_bullet (text : str) :
  format_sentences text
  = join [newline]
      (map (fun s => py "&bull; " ++ highlight (strip s))
           (filter (fun s => negb (length (strip s) =? 0))
                   (re_split false sentence_re text))).
Proof.
  unfold format_sentences, highlight.
  apply (@passes_over_bullets keywords_to_highlight (fun kw H => H) strip).
Qed.

(** ** Keys, values and the pairing loop *)

Lemma nth_split_gap (gt : occurrence -> str) (tail : str) (d : occurrence) :
  forall os i,
    i < length os ->
    nth (2 * i) (concat (map (fun o => [gap o; gt o]) os) ++ [tail]) []
    = gap (nth i os d).
Proof.
  induction os as [|o os IH]; intros i Hi; [cbn [length] in Hi; lia|].
  destruct i as [|i]; [reflexivity|].
  cbn [length] in Hi. replace (2 * S i) with (S (S (2 * i))) by lia.
  cbn [map concat app nth]. apply IH. lia.
Qed.

(** A word character followed by characters of the key class up to a key
    begins a key itself. *)
Lemma key_at_joined (c : ascii) (post k r : str) :
  is_word c = true -> forallb key_class post = true -> key_shaped k ->
  key_at (c :: post ++ k ++ r) <> None.
Proof.
  intros Hc Hpost [w [run [-> [Hw Hrun]]]]. cbn [key_at]. rewrite Hc.
  assert (E : post ++ (w :: run ++ [colon]) ++ r
              = (post ++ w :: run) ++ colon :: r).
  { rewrite <- !app_assoc. cbn [app]. now rewrite <- app_assoc. }
  rewrite E, (@span_run key_class (post ++ w :: run) colon r).
  - cbn [fst snd]. rewrite Ascii.eqb_refl. discriminate.
  - rewrite forallb_app, Hpost. cbn [forallb].
    now rewrite (word_key_class w Hw), Hrun.
  - exact colon_not_key_class.
Qed.

Lemma existsb_negb_forallb {A : Type} (p : A -> bool) (l : list A) :
  forallb p l = false -> existsb (fun x => negb (p x)) l = true.
Proof.
  induction l as [|x l IH]; cbn [forallb existsb]; [discriminate|].
  destruct (p x); cbn [negb andb orb]; [exact IH|reflexivity].
Qed.

(** X6: in the split sequence, a piece of text that a key follows never
    has a word character with only word, space or digit characters after
    it: such words are not left in the value before the key, they are part
    of the key. *)
Theorem words_before_a_key_join_it (text : str) (i : nat) (pre : str)
    (c : ascii) (post : str) :
  let values := re_split false (split_re (re_findall false key_re text)) text in
  2 * i + 1 < length values ->
  nth (2 * i) values [] = pre ++ c :: post ->
  is_word c = true ->
  existsb (fun d => negb (key_class d)) post = true.
Proof.
  intros values Hi Hnth Hc. apply existsb_negb_forallb.
  destruct (forallb key_class post) eqn:Hpost; [exfalso|reflexivity].
  destruct (@key_scan_shape text [] text eq_refl) as [Hocc _].
  unfold values, re_split in Hi, Hnth. rewrite split_finditer_eq in Hi, Hnth.
  rewrite <- finditer_scan in Hocc.
  destruct (finditer false key_re text) as [os tail]. cbn [fst snd] in *.
  cbn [has_group split_re] in Hi, Hnth.
  assert (Hlen : i < length os).
  { rewrite length_app in Hi. cbn [length] in Hi.
    assert (E : length (concat (map (fun o => [gap o; group_text o]) os))
                = 2 * length os).
    { clear. induction os as [|o os IH]; [reflexivity|].
      cbn [map concat app length]. rewrite IH. lia. }
    lia. }
  rewrite (@nth_split_gap group_text tail (Occ [] [] [] None []) os i Hlen)
    in Hnth.
  rewrite Forall_forall in Hocc.
  destruct (Hocc _ (nth_In os (Occ [] [] [] None []) Hlen))
    as [Hshape [_ [_ Hleft]]].
  apply (@key_at_joined c post (whole (nth i os (Occ [] [] [] None [])))
           (rest (nth i os (Occ [] [] [] None []))) Hc Hpost Hshape).
  exact (Hleft pre c post Hnth).
Qed.

Lemma words_before_a_key_join_it_witness :
  existsb (fun d => negb (key_class d)) (py "ed. ") = true.
Proof.
  apply (@words_before_a_key_join_it (py "Name: Red. Mug Value: 25") 1
           (py " ") "R"%char (py "ed. ")).
  - vm_compute. lia.
  - vm_compute. reflexivity.
  - vm_compute. reflexivity.
Defined.

Lemma range2_from_even :
  forall n fuel start,
    n < fuel ->
    range2_from fuel start (start + 2 * n + 1)
    = map (fun i => start + 2 * i) (seq 0 (S n)).
Proof.
  induction n as [|n IH]; intros fuel start Hf.
  - replace (start + 2 * 0 + 1) with (start + 1) by lia.
    destruct fuel as [|fuel]; [lia|]. cbn [range2_from seq map].
    rewrite (proj2 (Nat.ltb_lt start (start + 1))) by lia.
    rewrite Nat.mul_0_r, Nat.add_0_r. f_equal.
    destruct fuel; cbn [range2_from]; [reflexivity|].
    rewrite (proj2 (Nat.ltb_ge (start + 2) (start + 1))) by lia.
    reflexivity.
  - destruct fuel as [|fuel]; [lia|]. cbn [range2_from].
    replace (start <? start + 2 * S n + 1) with true
      by (symmetry; apply Nat.ltb_lt; lia).
    replace (start + 2 * S n + 1) with (start + 2 + 2 * n + 1) by lia.
    rewrite IH by lia.
    change (seq 0 (S (S n))) with (0 :: seq 1 (S n)). cbn [map].
    f_equal; [lia|]. rewrite <- seq_shift, map_map. apply map_ext.
    intros i. lia.
Qed.

Lemma pairing_loop_raises (values : list str) :
  forall idxs acc,
    (exists i, In i idxs /\ length values <= i + 1) ->
    pairing_loop values idxs acc = Raise IndexError.
Proof.
  induction idxs as [|i idxs IH]; intros acc [j [Hj Hbad]]; [destruct Hj|].
  cbn [pairing_loop]. unfold format_pair, index.
  destruct (nth_error values i) as [k|] eqn:Ek; [|reflexivity].
  cbn [bind].
  destruct (nth_error values (i + 1)) as [v|] eqn:Ev.
  - cbn [bind]. apply IH. destruct Hj as [->|Hj].
    + exfalso. assert (j + 1 < length values)
        by (apply nth_error_Some; congruence). lia.
    + now exists j.
  - reflexivity.
Qed.

(** X7: the pairing loop with the final join raises IndexError exactly
    on a sequence with an even number of elements that is not zero; on an
    odd number of elements, and on none, it returns. *)
Theorem format_values_raises_iff (values : list str) :
  format_values values = Raise IndexError
  <-> Nat.even (length values) = true /\ length values <> 0.
Proof.
  destruct (Nat.Even_or_Odd (length values)) as [[k Hk]|[k Hk]].
  - split.
    + intros H. split; [rewrite Hk; apply Nat.even_even|].
      intros E. destruct values; [|discriminate]. discriminate H.
    + intros [_ Hne]. unfold format_values.
      destruct k as [|k]; [lia|].
      rewrite pairing_loop_raises; [reflexivity|].
      exists (2 * k + 1). split; [|lia].
      unfold range2. rewrite Hk.
      replace (2 * S k) with (1 + 2 * k + 1) at 2 by lia.
      rewrite range2_from_even by lia.
      apply in_map_iff. exists k. split; [lia|]. apply in_seq. lia.
  - split.
    + intros H. rewrite (@format_values_spec values k) in H by lia.
      discriminate.
    + intros [He _]. rewrite Hk, Nat.add_comm, Nat.even_add_mul_2 in He.
      discriminate.
Qed.

(** ** The page *)

Ltac split_in H :=
  repeat match type of H with
         | _ \/ _ => destruct H as [H|H]
         | False => destruct H
         end;
  try discriminate H.

Section Page_properties.

Variable ident : Type.
Variable ident_eq : ident -> ident -> bool.
Variable ident_true : ident -> bool.
Variable ident_str : ident -> str.
Variable unique : list ident -> list ident.
Variable describe : failure -> str.
Variable selectbox : str -> list ident -> option ident.
Variable image_refused : cell -> option str.


Lemma row_item_shows_nothing (r : row) (label : string) :
  fst (row_item ident r label) = []
  /\ (forall f, snd (row_item ident r label) = inl f -> f = NoLabel label).
Proof.
  induction r as [|[l v] r IH]; cbn [row_item].
  - split; [reflexivity|]. now intros f [= <-].
  - destruct (String.eqb l label); [|exact IH].
    split; [reflexivity|]. intros f H. discriminate H.
Qed.

Lemma main_logic_details (path_exists : bool) (read_csv : str + dataframe ident)
    (cwd abspath body : str) :
  In (Markdown ident body true)
     (fst (main_logic ident_eq ident_true ident_str unique describe selectbox
             image_refused path_exists read_csv cwd abspath))
  <-> path_exists = true
      /\ exists df i r,
           read_csv = inr df
           /\ has_required_columns df = true
           /\ selectbox (py "Select a Sample ID:")
                (unique (map (@sample_id ident) (records df))) = Some i
           /\ ident_true i = true
           /\ hd_error (filter (fun r => ident_eq (sample_id r) i) (records df))
              = Some r
           /\ (format_content_locally (raw_description (cells r)) = Ok body
               \/ body = highlighted_raw_text (raw_description (cells r))).
Proof.
  unfold main_logic.
  destruct path_exists.
  2:{ split; [|intros [H _]; discriminate].
      cbn. intros [H|[H|[]]]; discriminate. }
  destruct read_csv as [msg|df].
  { split.
    - cbn. intros [H|[]]; discriminate.
    - intros [_ [df [i [r [H _]]]]]. discriminate. }
  unfold process_file. cbn [ui_bind ui_ret].
  destruct (has_required_columns df) eqn:Hreq; cbn [negb].
  2:{ split.
      - cbn. intros [H|[]]; discriminate.
      - intros [_ [df' [i [r [[= <-] [H _]]]]]]. congruence. }
  destruct (selectbox (py "Select a Sample ID:")
              (unique (map (@sample_id ident) (records df)))) as [i|] eqn:Hsel.
  2:{ split.
      - cbn. intros [H|[H|[]]]; discriminate.
      - intros [_ [df' [i [r [[= <-] [_ [H _]]]]]]]. congruence. }
  destruct (ident_true i) eqn:Htrue.
  2:{ split.
      - cbn. intros [H|[H|[]]]; discriminate.
      - intros [_ [df' [i' [r [[= <-] [_ [H [H' _]]]]]]]]. congruence. }
  unfold show_details, first_selected.
  destruct (filter (fun r => ident_eq (sample_id r) i) (records df))
    as [|r rs] eqn:Hf.
  { split.
    - cbn. intros [H|[H|[H|[]]]]; discriminate.
    - intros [_ [df' [i' [r [[= <-] [_ [H [_ [H' _]]]]]]]]].
      rewrite Hsel in H. injection H as <-. rewrite Hf in H'. discriminate. }
  cbn [ui_bind ui_ret ui_raise show app]. cbv zeta.
  destruct (format_total (raw_description (cells r))) as [out Hout].
  unfold call_format. rewrite Hout.
  destruct (row_item_shows_nothing (cells r) "image_link") as [Hri _].
  assert (Hback :
            forall b,
              format_content_locally (raw_description (cells r)) = Ok b
              \/ b = highlighted_raw_text (raw_description (cells r)) ->
              true = true
              /\ exists df0 i0 r0,
                   @inr str _ df = inr df0
                   /\ has_required_columns df0 = true
                   /\ selectbox (py "Select a Sample ID:")
                        (unique (map (@sample_id ident) (records df0)))
                      = Some i0
                   /\ ident_true i0 = true
                   /\ hd_error (filter (fun r1 => ident_eq (sample_id r1) i0)
                                        (records df0)) = Some r0
                   /\ (format_content_locally (raw_description (cells r0))
                       = Ok b
                       \/ b = highlighted_raw_text (raw_description (cells r0)))).
  { intros b Hb. split; [reflexivity|]. exists df, i, r. rewrite Hf.
    repeat split; auto. }
  assert (Hforth :
            (true = true
             /\ exists df0 i0 r0,
                  @inr str _ df = inr df0
                  /\ has_required_columns df0 = true
                  /\ selectbox (py "Select a Sample ID:")
                       (unique (map (@sample_id ident) (records df0)))
                     = Some i0
                  /\ ident_true i0 = true
                  /\ hd_error (filter (fun r1 => ident_eq (sample_id r1) i0)
                                       (records df0)) = Some r0
                  /\ (format_content_locally (raw_description (cells r0))
                      = Ok body
                      \/ body = highlighted_raw_text
                                  (raw_description (cells r0)))) ->
            body = out
            \/ body = highlighted_raw_text (raw_description (cells r))).
  { intros [_ [df' [i' [r' [[= <-] [_ [H [_ [H' Hb]]]]]]]]].
    rewrite Hsel in H. injection H as <-. rewrite Hf in H'.
    injection H' as <-. destruct Hb as [Hb|Hb]; [|now right].
    rewrite Hout in Hb. injection Hb as <-. now left. }
  destruct (row_item ident (cells r) "image_link") as [shown [f|url]];
    cbn [fst] in Hri; subst shown.
  - split.
    + cbn [ui_bind ui_ret ui_raise show app try_except fst In]. intros H.
      split_in H; apply Hback; inversion H; subst; auto.
    + intros H. apply Hforth in H.
      cbn [ui_bind ui_ret ui_raise show app try_except fst In].
      destruct H as [->| ->]; tauto.
  - cbn [ui_bind ui_ret ui_raise show app]. unfold show_image.
    destruct (image_refused url) as [msg|].
    + split.
      * cbn [ui_bind ui_ret ui_raise show app try_except fst In]. intros H.
        split_in H; apply Hback; inversion H; subst; auto.
      * intros H. apply Hforth in H.
        cbn [ui_bind ui_ret ui_raise show app try_except fst In].
        destruct H as [->| ->]; tauto.
    + split.
      * cbn [ui_bind ui_ret ui_raise show app try_except fst In]. intros H.
        split_in H; apply Hback; inversion H; subst; auto.
      * intros H. apply Hforth in H.
        cbn [ui_bind ui_ret ui_raise show app try_except fst In].
        destruct H as [->| ->]; tauto.
Qed.


Lemma page_shown (path_exists : bool) (read_csv : str + dataframe ident)
    (cwd abspath : str) :
  fst (page ident_eq ident_true ident_str unique describe selectbox
            image_refused path_exists read_csv cwd abspath)
  = Markdown ident
      (py "This app displays product details with local content formatting.")
      false
    :: fst (main_logic ident_eq ident_true ident_str unique describe selectbox
                       image_refused path_exists read_csv cwd abspath)
  /\ snd (page ident_eq ident_true ident_str unique describe selectbox
               image_refused path_exists read_csv cwd abspath)
     = snd (main_logic ident_eq ident_true ident_str unique describe selectbox
                       image_refused path_exists read_csv cwd abspath).
Proof.
  unfold page. cbn [ui_bind show].
  destruct (main_logic ident_eq ident_true ident_str unique describe selectbox
                       image_refused path_exists read_csv cwd abspath)
    as [shown r].
  split; reflexivity.
Qed.

(** X8: the page shows a text with HTML allowed exactly when the file is
    there, the table is read and has the three required columns, the user's
    choice is an identifier that counts as true, and some record has that
    identifier; the text is then the formatted description or the
    highlighted raw text of the first such record.  So nothing of a record
    is shown for a choice that counts as false, such as the number 0. *)
Theorem details_shown_iff (path_exists : bool)
    (read_csv : str + dataframe ident) (cwd abspath body : str) :
  In (Markdown ident body true)
     (fst (page ident_eq ident_true ident_str unique describe selectbox
             image_refused path_exists read_csv cwd abspath))
  <-> path_exists = true
      /\ exists df i r,
           read_csv = inr df
           /\ has_required_columns df = true
           /\ selectbox (py "Select a Sample ID:")
                (unique (map (@sample_id ident) (records df))) = Some i
           /\ ident_true i = true
           /\ hd_error (filter (fun r => ident_eq (sample_id r) i) (records df))
              = Some r
           /\ (format_content_locally (raw_description (cells r)) = Ok body
               \/ body = highlighted_raw_text (raw_description (cells r))).
Proof.
  destruct (page_shown path_exists read_csv cwd abspath) as [-> _].
  rewrite <- main_logic_details. cbn [In]. split.
  - intros [H|H]; [discriminate H|exact H].
  - intros H. right. exact H.
Qed.


End Page_properties.

(** ** The page on a complete table *)

Lemma row_get_found (r : row) (label : string) (default : cell) :
  existsb (String.eqb label) (map fst r) = true ->
  In (label, row_get r label default) r.
Proof.
  induction r as [|[l v] r IH]; cbn [map fst existsb row_get In].
  - discriminate.
  - rewrite (String.eqb_sym label l).
    destruct (String.eqb l label) eqn:Hl.
    + intros _. left. apply String.eqb_eq in Hl. now subst l.
    + cbn [orb]. intros H. right. exact (IH H).
Qed.

Lemma row_item_found (ident : Type) (r : row) (label : string) :
  existsb (String.eqb label) (map fst r) = true ->
  exists v, row_item ident r label = ui_ret ident v.
Proof.
  induction r as [|[l v] r IH]; cbn [map fst existsb row_item].
  - discriminate.
  - rewrite (String.eqb_sym label l).
    destruct (String.eqb l label).
    + intros _. now exists v.
    + cbn [orb]. exact IH.
Qed.

Lemma complete_has (ident : Type) (df : dataframe ident) (r : record ident)
    (col : string) :
  complete df = true ->
  In r (records df) ->
  existsb (String.eqb col) (columns df) = true ->
  String.eqb col "sample_id" = false ->
  existsb (String.eqb col) (map fst (cells r)) = true.
Proof.
  unfold complete. intros Hc Hr Hcol Hid.
  rewrite forallb_forall in Hc. specialize (Hc r Hr).
  rewrite forallb_forall in Hc.
  apply existsb_exists in Hcol. destruct Hcol as [c [Hin Hc']].
  apply String.eqb_eq in Hc'. subst c.
  specialize (Hc col Hin). rewrite Hid in Hc. exact Hc.
Qed.

Lemma required_columns_has (ident : Type) (df : dataframe ident) :
  has_required_columns df = true ->
  existsb (String.eqb "image_link") (columns df) = true
  /\ existsb (String.eqb "catalog_content") (columns df) = true.
Proof.
  unfold has_required_columns, required_columns. cbn [forallb].
  intros H. apply andb_prop in H. destruct H as [_ H].
  apply andb_prop in H. destruct H as [H1 H].
  apply andb_prop in H. destruct H as [H2 _]. now split.
Qed.

Lemma hd_filter_in (A : Type) (p : A -> bool) (l : list A) (a : A) :
  hd_error (filter p l) = Some a -> In a l.
Proof.
  intros H. destruct (filter p l) as [|b t] eqn:Hf; [discriminate|].
  injection H as ->.
  assert (Hin : In a (filter p l)) by (rewrite Hf; now left).
  apply filter_In in Hin. tauto.
Qed.

Section Complete_tables.

Variable ident : Type.
Variable ident_eq : ident -> ident -> bool.
Variable ident_true : ident -> bool.
Variable ident_str : ident -> str.
Variable unique : list ident -> list ident.
Variable describe : failure -> str.
Variable selectbox : str -> list ident -> option ident.
Variable image_refused : cell -> option str.

(** X10: in a table that has a cell under every column in every record,
    as a table read from a file has, the lookup of the image link never
    fails, and every text shown with HTML allowed is made from the cell
    that a record has under the label of the description: the default text
    of the lookup in line 92 is never used. *)
Theorem required_cells_found (path_exists : bool) (df : dataframe ident)
    (cwd abspath : str) :
  complete df = true ->
  (forall label,
      snd (process_file ident_eq ident_true ident_str unique selectbox
             image_refused (inr df))
      <> inl (NoLabel label))
  /\ forall body,
       In (Markdown ident body true)
          (fst (page ident_eq ident_true ident_str unique describe selectbox
                  image_refused path_exists (inr df) cwd abspath)) ->
       exists r v,
         In r (records df)
         /\ In ("catalog_content"%string, v) (cells r)
         /\ (format_content_locally (py_str v) = Ok body
             \/ body = highlighted_raw_text (py_str v)).
Proof.
  intros Hc. split.
  - intros label. unfold process_file. cbn [ui_bind ui_ret].
    destruct (has_required_columns df) eqn:Hreq; cbn [negb];
      [|cbn; discriminate].
    destruct (selectbox (py "Select a Sample ID:")
                (unique (map (@sample_id ident) (records df)))) as [i|];
      [|cbn; discriminate].
    destruct (ident_true i); [|cbn; discriminate].
    unfold show_details, first_selected.
    destruct (filter (fun r => ident_eq (sample_id r) i) (records df))
      as [|r rs] eqn:Hf; [cbn; discriminate|].
    assert (Hr : In r (records df)).
    { apply (@hd_filter_in _ (fun r => ident_eq (sample_id r) i)).
      rewrite Hf. reflexivity. }
    cbn [ui_bind ui_ret ui_raise show app]. cbv zeta.
    destruct (format_total (raw_description (cells r))) as [out Hout].
    unfold call_format. rewrite Hout.
    destruct (@row_item_found ident (cells r) "image_link") as [url ->].
    { apply (@complete_has ident df r "image_link" Hc Hr);
        [apply (required_columns_has df Hreq)|reflexivity]. }
    cbn [ui_bind ui_ret ui_raise show app]. unfold show_image.
    destruct (image_refused url); cbn; discriminate.
  - intros body H.
    destruct (page_shown ident_eq ident_true ident_str unique describe
                selectbox image_refused path_exists (inr df) cwd abspath)
      as [Hs _].
    rewrite Hs in H. destruct H as [H|H]; [discriminate H|].
    apply (main_logic_details ident_eq ident_true ident_str unique describe
             selectbox image_refused) in H.
    destruct H as [_ [df' [i [r [[= <-] [Hreq [_ [_ [Hhd Hb]]]]]]]]].
    assert (Hr : In r (records df)) by exact (hd_filter_in _ _ Hhd).
    exists r, (row_get (cells r) "catalog_content" (CellStr fallback)).
    split; [exact Hr|]. split; [|exact Hb].
    apply row_get_found.
    apply (@complete_has ident df r "catalog_content" Hc Hr);
      [apply (required_columns_has df Hreq)|reflexivity].
Qed.

End Complete_tables.

Lemma required_cells_found_witness :
  exists r v,
    In r (records two_mugs)
    /\ In ("catalog_content"%string, v) (cells r)
    /\ (format_content_locally (py_str v) = Ok (py "**Item Name:** Red Mug")
        \/ py "**Item Name:** Red Mug" = highlighted_raw_text (py_str v)).
Proof.
  destruct (@required_cells_found nat Nat.eqb (fun i => negb (i =? 0))
              (fun _ => py "7") (nodup Nat.eq_dec) (fun _ => [])
              (fun _ options => hd_error options) (fun _ => None)
              true two_mugs [] []) as [_ H].
  - vm_compute. reflexivity.
  - apply H. vm_compute. do 8 right. left. reflexivity.
Defined.

(** * The formatter and the words of the specification *)

(** ** Keyword emphasis in the words of the specification *)

Lemma lit_at_nonempty (kw aft m r : str) :
  kw <> [] -> lit_at true kw aft = Some (m, r) -> m <> [].
Proof.
  intros Hne H. apply lit_at_folded in H. intros ->.
  destruct kw; [congruence|discriminate].
Qed.

Lemma hd_error_app_ne {A : Type} (l l' : list A) :
  l <> [] -> hd_error (l ++ l') = hd_error l.
Proof. destruct l; [congruence|reflexivity]. Qed.

(** For a keyword that begins and ends with a word character, [\b] on both
    sides says that no word character stands on either side. *)
Lemma keyword_at_word_occurrence (kw bef aft : str) :
  word_at (hd_error kw) = true -> word_at (hd_error (rev kw)) = true ->
  keyword_at kw bef aft = word_occurrence kw bef aft.
Proof.
  intros Hh Hl. unfold keyword_at, word_occurrence, boundary.
  destruct (lit_at true kw aft) as [[m r]|] eqn:E.
  2:{ now destruct (xorb _ _). }
  assert (Hkw : kw <> []) by (intros ->; discriminate).
  pose proof (@lit_at_nonempty kw aft m r Hkw E) as Hm.
  pose proof (@lit_at_folded kw aft m r E) as Hf.
  pose proof (@lit_at_app true kw aft m r E) as Ha.
  assert (H1 : word_at (hd_error aft) = true).
  { rewrite Ha, (@hd_error_app_ne _ m r Hm), (@word_at_folded m kw Hf). exact Hh. }
  assert (H2 : word_at (hd_error (rev m ++ bef)) = true).
  { rewrite hd_error_app_ne.
    - rewrite (@word_at_folded (rev m) (rev kw)); [exact Hl|].
      now rewrite !map_rev, Hf.
    - intros H. apply Hm. apply rev_inj. exact H. }
  rewrite H1, H2.
  destruct (word_at (hd_error bef)), (word_at (hd_error r)); reflexivity.
Qed.

(** A search that has skipped some text already reports it in the gap. *)
Lemma search_skipped (ic : bool) (r : regex) :
  forall aft bef skipped,
    search ic r bef skipped aft
    = option_map
        (fun o => Occ (left o) (rev skipped ++ gap o) (whole o) (group1 o)
                      (rest o))
        (search ic r bef [] aft).
Proof.
  induction aft as [|x xs IH]; intros bef skipped.
  - cbn [search]. destruct (hit ic r bef []) as [st|]; [|reflexivity].
    cbn [option_map gap left whole group1 rest rev]. now rewrite app_nil_r.
  - cbn [search]. destruct (hit ic r bef (x :: xs)) as [st|].
    + cbn [option_map gap left whole group1 rest rev]. now rewrite app_nil_r.
    + rewrite (IH (x :: bef) (x :: skipped)), (IH (x :: bef) [x]).
      destruct (search ic r (x :: bef) [] xs) as [o|]; [|reflexivity].
      cbn [option_map gap left whole group1 rest rev app].
      now rewrite <- app_assoc.
Qed.

Lemma render_emphasize (kw : str) :
  word_at (hd_error kw) = true -> word_at (hd_error (rev kw)) = true ->
  forall fuel bef aft,
    length aft < fuel ->
    render (scan true (keyword_re kw) bef aft)
    = spec_emphasize_from fuel kw bef aft.
Proof.
  intros Hh Hl.
  assert (Hkw : kw <> []) by (intros ->; discriminate).
  induction fuel as [|n IH]; intros bef aft Hlen; [lia|].
  rewrite render_scan_eq, search_unfold, hit_keyword_re.
  rewrite (@keyword_at_word_occurrence kw bef aft Hh Hl).
  cbn [spec_emphasize_from].
  destruct (word_occurrence kw bef aft) as [[m r]|] eqn:E.
  - unfold word_occurrence in E.
    destruct (lit_at true kw aft) as [[m' r']|] eqn:El; [|discriminate].
    destruct (word_at (hd_error bef) || word_at (hd_error r'));
      [discriminate|].
    pose proof (@lit_at_nonempty kw aft m' r' Hkw El) as Hm.
    pose proof (@lit_at_app true kw aft m' r' El) as Ha.
    injection E as <- <-.
    destruct m' as [|c m]; [congruence|].
    unfold found. cbn [gap whole left rest group1 consumed captured remaining].
    rewrite rev_involutive. cbn [rev app].
    rewrite expand_highlight
      by (cbn [group1 whole]; reflexivity).
    cbn [whole]. rewrite (IH ((rev m ++ [c]) ++ bef) r').
    + reflexivity.
    + rewrite Ha, length_app in Hlen. cbn [length] in Hlen. lia.
  - assert (Hf : found true (@None (str * str)) = None) by reflexivity.
    rewrite Hf. destruct aft as [|x xs]; [reflexivity|].
    rewrite search_skipped.
    rewrite <- (IH (x :: bef) xs) by (cbn [length] in Hlen; lia).
    rewrite render_scan_eq.
    destruct (search true (keyword_re kw) (x :: bef) [] xs) as [o|];
      [|reflexivity].
    cbn [option_map gap whole left rest group1 rev app].
    unfold expand, group_text. cbn [group1]. reflexivity.
Qed.

(** One pass of the loop does what the specification says of one keyword. *)
Lemma highlight_pass_emphasize (kw text : str) :
  word_at (hd_error kw) = true -> word_at (hd_error (rev kw)) = true ->
  highlight_pass text kw = spec_emphasize kw text.
Proof.
  intros Hh Hl. unfold highlight_pass, spec_emphasize.
  rewrite re_sub_render. apply (@render_emphasize kw Hh Hl). lia.
Qed.

Lemma passes_emphasize (kws : list str) :
  (forall kw, In kw kws ->
     word_at (hd_error kw) = true /\ word_at (hd_error (rev kw)) = true) ->
  forall text,
    fold_left highlight_pass kws text
    = fold_left (fun current kw => spec_emphasize kw current) kws text.
Proof.
  induction kws as [|kw kws IH]; intros Hk text; [reflexivity|].
  cbn [fold_left]. destruct (Hk kw (or_introl eq_refl)) as [Hh Hl].
  rewrite (@highlight_pass_emphasize kw text Hh Hl). apply IH.
  intros kw' Hin. apply Hk. now right.
Qed.

(** The loop of passes is keyword emphasis. *)
Lemma highlight_emphasis (text : str) : highlight text = spec_emphasis text.
Proof. exact (@passes_emphasize keywords_to_highlight keywords_word_ends text). Qed.

(** ** Trimming in the words of the specification *)

Lemma lstrip_split (s : str) :
  exists l, s = l ++ lstrip s /\ forallb is_space l = true.
Proof.
  induction s as [|c s IH]; cbn [lstrip].
  - now exists [].
  - destruct (is_space c) eqn:E.
    + destruct IH as [l [Hs Hl]]. exists (c :: l). cbn [app forallb].
      rewrite E, Hl. split; [now f_equal|reflexivity].
    + now exists [].
Qed.

Lemma lstrip_head_space (s : str) : space_at (hd_error (lstrip s)) = false.
Proof.
  pose proof (lstrip_head s) as H.
  destruct (lstrip s) as [|c s']; [reflexivity|exact H].
Qed.

Lemma forallb_rev {A : Type} (p : A -> bool) (l : list A) :
  forallb p (rev l) = forallb p l.
Proof.
  induction l as [|a l IH]; [reflexivity|].
  cbn [rev forallb]. rewrite forallb_app, IH. cbn [forallb].
  rewrite andb_true_r. apply andb_comm.
Qed.

(** [strip] trims. *)
Lemma strip_trim_of (s : str) : trim_of s (strip s).
Proof.
  destruct (lstrip_split s) as [l [Hs Hl]].
  destruct (lstrip_split (rev (lstrip s))) as [r [Hr Hrs]].
  assert (Hmid : lstrip s = strip s ++ rev r).
  { unfold strip, rstrip. rewrite <- rev_app_distr, <- Hr.
    now rewrite rev_involutive. }
  exists l, (rev r). split; [now rewrite <- Hmid|].
  split; [exact Hl|]. split; [now rewrite forallb_rev|]. split.
  - pose proof (lstrip_head_space s) as Hh. rewrite Hmid in Hh.
    destruct (strip s); [reflexivity|exact Hh].
  - unfold strip, rstrip. rewrite rev_involutive. apply lstrip_head_space.
Qed.

Lemma strip_blank (s : str) :
  negb (length (strip s) =? 0) = negb (forallb is_space s).
Proof.
  f_equal. destruct (forallb is_space s) eqn:E.
  - now rewrite (strip_spaces s E).
  - destruct (strip s) as [|c t] eqn:Es; [|reflexivity].
    rewrite (strip_nil s Es) in E. discriminate.
Qed.

(** ** Sentences in the words of the specification *)

Lemma terminal_mark_is_terminal (c : ascii) :
  terminal_mark c <-> is_terminal c = true.
Proof.
  unfold terminal_mark, is_terminal. split.
  - intros [->|[->| ->]]; reflexivity.
  - intros H. apply orb_prop in H. destruct H as [H|H].
    + apply orb_prop in H. destruct H as [H|H]; apply Ascii.eqb_eq in H; auto.
    + apply Ascii.eqb_eq in H. auto.
Qed.

Lemma sentence_break_boundary (o : occurrence) :
  sentence_break o -> sentence_boundary o.
Proof.
  intros [[s [c [Hg Hc]]] [Hn [Hw Hr]]]. repeat split.
  - exists s, c. split; [exact Hg|]. now apply terminal_mark_is_terminal.
  - exact Hn.
  - exact Hw.
  - destruct (rest o); [reflexivity|exact Hr].
Qed.

(** The sentence pattern hits wherever whitespace follows a terminal mark. *)
Lemma sentence_hit (c x : ascii) (bef aft : str) :
  terminal_mark c -> is_space x = true ->
  hit false sentence_re (c :: bef) (x :: aft) <> None.
Proof.
  intros Hc Hx. rewrite hit_sentence_re. unfold sentence_at.
  apply terminal_mark_is_terminal in Hc. rewrite Hc, Hx. discriminate.
Qed.

Lemma not_hit_unbroken (bef s z : str) :
  (forall pre c post, s = pre ++ c :: post ->
     hit false sentence_re (rev pre ++ bef) (c :: post ++ z) = None) ->
  unbroken s.
Proof.
  intros Hm a c x b -> Hc. destruct (is_space x) eqn:Hx; [|reflexivity].
  exfalso. specialize (Hm (a ++ [c]) x b).
  rewrite <- app_assoc in Hm. specialize (Hm eq_refl).
  rewrite rev_app_distr in Hm. cbn [rev app] in Hm.
  exact (@sentence_hit c x (rev a ++ bef) (b ++ z) Hc Hx Hm).
Qed.

(** No piece that the scan leaves has a place in it where the pattern
    matches. *)
Lemma sentence_pieces_unbroken (bef aft : str) :
  Forall unbroken
    (map gap (fst (scan false sentence_re bef aft))
     ++ [snd (scan false sentence_re bef aft)]).
Proof.
  apply (@scan_ind false sentence_re
           (fun _ _ res => Forall unbroken (map gap (fst res) ++ [snd res]))).
  - clear bef aft. intros bef aft Hs. cbn [fst snd map app].
    constructor; [|constructor].
    apply (@not_hit_unbroken bef aft []).
    intros pre c post ->. rewrite app_nil_r.
    exact (@search_none false sentence_re _ _ _ Hs pre (c :: post) eq_refl).
  - clear bef aft. intros bef aft o os tail Hs _ IH.
    cbn [fst snd map app] in *. constructor; [|exact IH].
    destruct (search_spec _ _ _ _ _ Hs) as [g [Hg [_ [_ [_ [_ Hm]]]]]].
    cbn [rev app] in Hg. rewrite Hg.
    exact (@not_hit_unbroken bef g (whole o ++ rest o) Hm).
Qed.

(** ** The two branches in the words of the specification *)





Lemma trimmed_lines (l : list str) : Forall2 trim_of l (map strip l).
Proof.
  induction l as [|s l IH]; cbn [map]; constructor;
    [apply strip_trim_of|exact IH].
Qed.

(** C4: when no key is found, the text is split exactly at the places where
    whitespace follows one of the marks [.], [!] and [?]: each boundary is
    all the whitespace after such a mark, the mark stays at the end of the
    piece before it, and no piece has such a place left in it.  The pieces
    that are whitespace only are dropped, each other piece is trimmed of
    the whitespace at its ends and prefixed with the bullet glyph, the
    lines are joined by one newline, and keyword emphasis is applied once,
    to the joined block.  The text "This is great. Buy it now!" gives two
    bullet lines, terminal marks kept. *)
Theorem format_sentence_bullets :
  (forall text : str,
     re_findall false key_re text = [] ->
     let os := fst (finditer false sentence_re text) in
     let tail := snd (finditer false sentence_re text) in
     let sentences := re_split false sentence_re text in
     sentences = map gap os ++ [tail]
     /\ text = concat (map (fun o => gap o ++ whole o) os) ++ tail
     /\ Forall sentence_boundary os
     /\ Forall unbroken sentences
     /\ exists lines,
          Forall2 trim_of
            (filter (fun s => negb (forallb is_space s)) sentences) lines
          /\ format_content_locally text
             = Ok (spec_emphasis
                     (join [newline]
                        (map (fun l => py "&bull; " ++ l) lines))))
  /\ format_content_locally (py "This is great. Buy it now!")
     = Ok (py "&bull; This is great." ++ [newline] ++ py "&bull; Buy it now!").
Proof.
  split; [|vm_compute; reflexivity].
  intros text Hk os tail sentences.
  assert (Hs : sentences = map gap os ++ [tail]).
  { unfold sentences, re_split, os, tail.
    destruct (finditer false sentence_re text) as [os' tail']. cbn [fst snd].
    cbn [has_group sentence_re orb]. f_equal.
    induction os' as [|o os' IH]; cbn [map concat app]; [reflexivity|].
    now rewrite IH. }
  split; [exact Hs|]. split; [|split; [|split]].
  - unfold os, tail. rewrite finditer_scan. symmetry. apply scan_concat.
  - unfold os. rewrite finditer_scan.
    eapply Forall_impl; [exact sentence_break_boundary|].
    apply sentence_scan_shape. discriminate.
  - rewrite Hs. unfold os, tail. rewrite finditer_scan.
    apply sentence_pieces_unbroken.
  - exists (map strip
              (filter (fun s => negb (forallb is_space s)) sentences)).
    split; [apply trimmed_lines|].
    rewrite (format_no_keys text Hk). unfold format_sentences.
    fold sentences. rewrite highlight_emphasis. do 3 f_equal.
    rewrite map_map.
    rewrite (filter_ext _ (fun s => negb (forallb is_space s)) strip_blank).
    reflexivity.
Qed.

Lemma format_sentence_bullets_witness :
  Forall unbroken
    (re_split false sentence_re (py "Nice mug! Holds tea.  Buy a unit?"))
  /\ exists lines,
       Forall2 trim_of
         (filter (fun s => negb (forallb is_space s))
            (re_split false sentence_re
               (py "Nice mug! Holds tea.  Buy a unit?")))
         lines
       /\ format_content_locally (py "Nice mug! Holds tea.  Buy a unit?")
          = Ok (spec_emphasis
                  (join [newline] (map (fun l => py "&bull; " ++ l) lines))).
Proof.
  destruct (proj1 format_sentence_bullets
              (py "Nice mug! Holds tea.  Buy a unit?"))
    as [_ [_ [_ [Hu Hl]]]].
  - vm_compute. reflexivity.
  - split; [exact Hu|exact Hl].
Defined.
